(** * Repository-Tracker: a shallow embedding of the Go sources

    The development follows the three source files:
    - [repo.go]: resolution of http archive URLs to git coordinates
      ([githubRE], [githubCodeloadRE], [httpGitMapper], [HTTPToGit]);
    - [tracker.go]: the local mirror ([ensureCacheDir], [updateCache],
      [NewGitRepo]), the update check ([CheckUpdate]), the change log
      ([CommitLog], [parseChangelog]) and [NewCommits];
    - [reporter.go]: the markdown report ([shortHash], [TextReport]) and,
      in the same file, the worker loop of [main].

    Go strings are byte strings and are modelled by [string].  The pieces
    of Go's standard library the code calls ([strings], [regexp],
    [bufio.Scanner], [strconv.ParseInt], [path/filepath]) are modelled
    first, each as an executable function. *)

From Stdlib Require Import String Ascii ZArith List Lia Bool.
From Stdlib Require Import DecimalString.
From stdpp Require Import base option gmap strings list.

Local Open Scope Z_scope.
Local Open Scope nat_scope.
Local Open Scope stdpp_scope.

(** ** Package [strings] *)

Module strings.

(** [s[n:]], for [n <= len(s)]. *)
Fixpoint drop (n : nat) (s : string) : string :=
  match n, s with
  | O, _ => s
  | S n', String _ s' => drop n' s'
  | S _, EmptyString => EmptyString
  end.

(** [s[:n]], for [n <= len(s)]. *)
Fixpoint take (n : nat) (s : string) : string :=
  match n, s with
  | S n', String c s' => String c (take n' s')
  | _, _ => EmptyString
  end.

Definition HasPrefix (s pre : string) : bool := String.prefix pre s.

Definition HasSuffix (s suf : string) : bool :=
  (String.length suf <=? String.length s) &&
  String.eqb (drop (String.length s - String.length suf) s) suf.

Definition TrimPrefix (s pre : string) : string :=
  if HasPrefix s pre then drop (String.length pre) s else s.

Definition TrimSuffix (s suf : string) : string :=
  if HasSuffix s suf then take (String.length s - String.length suf) s else s.

(** [Cut s sep] is [Some (s[:i], s[i+len(sep):])] for [i = Index(s, sep)],
    the leftmost occurrence of [sep], and [None] when [Index] is [-1]. *)
Fixpoint Cut (s sep : string) : option (string * string) :=
  if HasPrefix s sep then Some (EmptyString, drop (String.length sep) s)
  else match s with
       | EmptyString => None
       | String c s' =>
           match Cut s' sep with
           | Some (a, b) => Some (String c a, b)
           | None => None
           end
       end.

(** The loop of [genSplit] for a non-empty separator: at most [cuts]
    pieces are cut off, the rest of the string is the last element.
    [fuel] bounds the iterations; [len(s)] cuts are never exceeded. *)
Fixpoint genSplit (fuel cuts : nat) (s sep : string) : list string :=
  match fuel, cuts with
  | S fuel', S cuts' =>
      match Cut s sep with
      | Some (a, rest) => a :: genSplit fuel' cuts' rest sep
      | None => [s]
      end
  | _, _ => [s]
  end.

(** [SplitN(s, sep, n)] for [sep != ""]: [n == 0] gives nil, [n < 0] all
    substrings, [n > 0] at most [n] substrings, the last one unsplit. *)
Definition SplitN (s sep : string) (n : Z) : list string :=
  if (n =? 0)%Z then []
  else if (n <? 0)%Z then genSplit (S (String.length s)) (String.length s) s sep
  else genSplit (S (String.length s)) (Z.to_nat n - 1) s sep.

Definition Split (s sep : string) : list string := SplitN s sep (-1).

(** [Join(elems, sep)]. *)
Fixpoint Join (elems : list string) (sep : string) : string :=
  match elems with
  | [] => EmptyString
  | [e] => e
  | e :: rest => e +:+ sep +:+ Join rest sep
  end.

End strings.

(** ** Package [regexp]

    The syntax needed by the three patterns of the program, and a
    backtracking matcher.  Alternatives are tried left to right and [+] is
    greedy, which is Go's leftmost-first semantics; the matcher works on
    bytes, which agrees with Go on the classes used here ([\w], [/] and
    newline are ASCII). *)

Module regexp.

Inductive Regexp : Type :=
| Empty                                       (* matches "" *)
| Lit (c : ascii)                             (* a literal byte *)
| Class (neg : bool) (ranges : list (ascii * ascii))  (* [a-z...] / [^a-z...] *)
| Cat (r1 r2 : Regexp)
| Alt (r1 r2 : Regexp)
| Plus (r : Regexp)                           (* r+ , greedy *)
| Group (i : nat) (r : Regexp)                (* capturing group number i *)
| BeginText                                   (* ^ *)
| EndText.                                    (* $ *)

(** A literal string, as a sequence of [Lit]. *)
Fixpoint Str (s : string) : Regexp :=
  match s with
  | EmptyString => Empty
  | String c EmptyString => Lit c
  | String c s' => Cat (Lit c) (Str s')
  end.

Definition in_range (c : ascii) (r : ascii * ascii) : bool :=
  (nat_of_ascii (fst r) <=? nat_of_ascii c) && (nat_of_ascii c <=? nat_of_ascii (snd r)).

Definition class_matches (neg : bool) (ranges : list (ascii * ascii)) (c : ascii) : bool :=
  xorb neg (existsb (in_range c) ranges).

(** Captures: the text last matched by each group. *)
Definition Caps := list (nat * string).

Fixpoint cap (i : nat) (cs : Caps) : string :=
  match cs with
  | [] => EmptyString
  | (j, s) :: cs' => if Nat.eqb i j then s else cap i cs'
  end.

(** A match in progress: the offset reached, the input left, the captures. *)
Definition Cont := nat -> string -> Caps -> option (nat * Caps).
Definition Matcher := nat -> string -> Caps -> Cont -> option (nat * Caps).

Definition orElse {A} (x y : option A) : option A :=
  match x with Some _ => x | None => y end.

(** [m+]: one [m], then as many more as possible, each consuming input. *)
Fixpoint plusLoop (m : Matcher) (fuel : nat) : Matcher :=
  fun pos s caps k =>
    m pos s caps (fun pos' s' caps' =>
      match fuel with
      | O => k pos' s' caps'
      | S fuel' =>
          if pos <? pos'
          then orElse (plusLoop m fuel' pos' s' caps' k) (k pos' s' caps')
          else k pos' s' caps'
      end).

Fixpoint rmatch (r : Regexp) : Matcher :=
  fun pos s caps k =>
    match r with
    | Empty => k pos s caps
    | Lit c =>
        match s with
        | String c' s' => if Ascii.eqb c c' then k (S pos) s' caps else None
        | EmptyString => None
        end
    | Class neg ranges =>
        match s with
        | String c' s' => if class_matches neg ranges c' then k (S pos) s' caps else None
        | EmptyString => None
        end
    | Cat r1 r2 => rmatch r1 pos s caps (fun pos' s' caps' => rmatch r2 pos' s' caps' k)
    | Alt r1 r2 => orElse (rmatch r1 pos s caps k) (rmatch r2 pos s caps k)
    | Plus r' => plusLoop (rmatch r') (String.length s) pos s caps k
    | Group i r' =>
        rmatch r' pos s caps (fun pos' s' caps' =>
          k pos' s' ((i, strings.take (pos' - pos) s) :: caps'))
    | BeginText => if pos =? 0 then k pos s caps else None
    | EndText => match s with EmptyString => k pos s caps | _ => None end
    end.

(** The match of [r] that starts at offset [pos], where [s] is the input
    from [pos] on: the end offset and the captures. *)
Definition matchAt (r : Regexp) (pos : nat) (s : string) : option (nat * Caps) :=
  rmatch r pos s [] (fun pos' _ caps => Some (pos', caps)).

(** The leftmost match at or after [pos]: start, end, captures. *)
Fixpoint search (r : Regexp) (pos : nat) (s : string) : option (nat * nat * Caps) :=
  match matchAt r pos s with
  | Some (e, caps) => Some (pos, e, caps)
  | None =>
      match s with
      | EmptyString => None
      | String _ s' => search r (S pos) s'
      end
  end.

(** [re.FindStringSubmatch(s)] for a pattern with [ngroups] groups: nil
    when there is no match, otherwise the text of the leftmost match
    followed by the text of each group. *)
Definition FindStringSubmatch (r : Regexp) (ngroups : nat) (s : string) : list string :=
  match search r 0 s with
  | None => []
  | Some (b, e, caps) =>
      strings.take (e - b) (strings.drop b s) :: map (fun i => cap i caps) (seq 1 ngroups)
  end.

(** The loop of [re.ReplaceAllString(src, repl)] for a [repl] without
    [$]: [s] is the input from [pos] on, [lastEnd] the end of the
    previous match.  Unmatched bytes are copied; a match is replaced,
    except an empty match right after the previous match; after an
    empty match the search advances by one byte. *)
Fixpoint replaceAll (fuel : nat) (r : Regexp) (repl : string)
    (pos lastEnd : nat) (s : string) : string :=
  match fuel with
  | O => s
  | S fuel' =>
      match matchAt r pos s with
      | Some (e, _) =>
          let ins := if (lastEnd <? e) || (pos =? 0) then repl else EmptyString in
          if pos <? e
          then ins +:+ replaceAll fuel' r repl e e (strings.drop (e - pos) s)
          else match s with
               | EmptyString => ins
               | String c s' => ins +:+ String c (replaceAll fuel' r repl (S pos) e s')
               end
      | None =>
          match s with
          | EmptyString => EmptyString
          | String c s' => String c (replaceAll fuel' r repl (S pos) lastEnd s')
          end
      end
  end.

Definition ReplaceAllString (r : Regexp) (src repl : string) : string :=
  replaceAll (S (String.length src)) r repl 0 0 src.

(** [\w] is [[0-9A-Za-z_]]. *)
Definition word_ranges : list (ascii * ascii) :=
  [("0", "9"); ("A", "Z"); ("a", "z"); ("_", "_")]%char.

(** [[^/]] and [.] (any byte but newline). *)
Definition notSlash : Regexp := Class true [("/", "/")]%char.
Definition anyChar : Regexp := Class true [("010", "010")]%char.

End regexp.

(** ** Errors and results

    A Go [error] value.  Messages built by [fmt.Errorf] keep their
    arguments as fields instead of being formatted. *)

Inductive error : Type :=
| errorString (msg : string)           (* errors.New(msg), fmt.Errorf(msg) *)
| wrongFormat (line : string)          (* fmt.Errorf("line %q is in a wrong format", line) *)
| gitFailed (args : list string) (out : string) (cause : error)
                                       (* fmt.Errorf("`git %v` failed with output %q: %v", args, out, err) *)
| ExitError (status : Z)               (* *exec.ExitError *)
| NumError (fn num : string) (cause : error)   (* *strconv.NumError *)
| ErrSyntax                            (* strconv.ErrSyntax *)
| ErrRange                             (* strconv.ErrRange *)
| ErrTooLong                           (* bufio.ErrTooLong *)
| io_EOF                               (* io.EOF *)
| PathError (op path : string)         (* *os.PathError *)
| url_Error (op url : string)          (* *url.Error *)
| ExecError (name : string) (cause : error).   (* template.ExecError *)

(** A Go result pair [(v, err)]: either [(v, nil)] or [(zero, err)]. *)
Inductive Result (A : Type) : Type :=
| Ok (a : A)
| Err (e : error).
Arguments Ok {A} a.
Arguments Err {A} e.

Definition isOk {A} (r : Result A) : bool :=
  match r with Ok _ => true | Err _ => false end.

(** ** The platform: [net/url], the file system and the [git] binary

    The program reaches everything outside of it through a handful of
    library calls.  They are the fields of [Platform]; the functions of the
    program are written against this interface. *)

(** The fields of [url.URL] the program and its callers read. *)
Record URL : Type := mkURL {
  Scheme : string;
  Host : string;
  Path : string;
  RawQuery : string;
  Fragment : string
}.

(** An open [*os.File]: the name it was opened with. *)
Definition File : Type := string.

Class Platform : Type := {
  (** the state of the file system, of the network and of the remotes *)
  World : Type;
  (** [url.Parse(rawurl)] *)
  url_Parse : string -> Result URL;
  (** [os.TempDir()], read once into the package variable [cacheDir] *)
  os_TempDir : string;
  (** [os.MkdirAll(path, 0755)] *)
  os_MkdirAll : string -> World -> option error * World;
  (** [os.Open(name)] *)
  os_Open : string -> World -> Result File;
  (** [f.Readdir(n)]: the names read and the error, [io.EOF] at the end
      of the directory *)
  File_Readdir : File -> Z -> World -> list string * option error;
  (** [os.Create(name)] *)
  os_Create : string -> World -> Result File * World;
  (** [f.Write(b)] *)
  File_Write : File -> string -> World -> option error * World;
  (** [f.Close()]: the file was written without buffering, closing it
      changes no content *)
  File_Close : File -> World -> option error;
  (** [exec.Command("git", args...)] run in directory [dir] by
      [CombinedOutput]: the output and the error, which is non-nil exactly
      when the exit status is not 0 or the process could not be run *)
  exec_git : string -> list string -> World -> (string * option error) * World;
  (** whether [text/template] recovers a panic of a function it calls and
      returns it as the error of [Execute] (it does from Go 1.12 on;
      before, the panic unwinds through [Execute]) *)
  template_safeCall : bool
}.

(** ** repo.go: from an http archive to a git repository *)

(** [gitPackageInfo].  (The worker loop reads [gr.Revision] and [gr.URL].) *)
Record gitPackageInfo : Type := mkGit {
  git_Revision : string;
  git_URL : string
}.

(** [httpPackageInfo] *)
Record httpPackageInfo : Type := mkHTTP {
  URLs : list string;
  Name : string
}.

Module patterns.
Import regexp.

Definition cats (rs : list Regexp) : Regexp := foldr Cat Empty rs.

(** [^/([^/]+)/([^/]+)/(?:archive|releases/download)/([^/]+)(?:\.(?:tar\.gz|zip)|/[^/]+)$] *)
Definition githubRE : Regexp :=
  cats [ BeginText;
         Lit "/"; Group 1 (Plus notSlash);
         Lit "/"; Group 2 (Plus notSlash);
         Lit "/"; Alt (Str "archive") (Str "releases/download");
         Lit "/"; Group 3 (Plus notSlash);
         Alt (Cat (Lit ".") (Alt (Str "tar.gz") (Str "zip")))
             (Cat (Lit "/") (Plus notSlash));
         EndText ].

(** [^/([^/]+)/([^/]+)/(?:[^/]+)/(.+)$] *)
Definition githubCodeloadRE : Regexp :=
  cats [ BeginText;
         Lit "/"; Group 1 (Plus notSlash);
         Lit "/"; Group 2 (Plus notSlash);
         Lit "/"; Plus notSlash;
         Lit "/"; Group 3 (Plus anyChar);
         EndText ].

(** [[^\w]+] *)
Definition pathUnsafeRE : Regexp := Plus (Class true word_ranges).

End patterns.

(** [m[i]] on the result of [FindStringSubmatch]; the three patterns have
    three groups, so a non-empty [m] has the four elements that are read. *)
Definition sub (m : list string) (i : nat) : string := default EmptyString (m !! i).

(** The function registered for ["github.com"]. *)
Definition githubMapper (u : URL) : Result gitPackageInfo :=
  let m := regexp.FindStringSubmatch patterns.githubRE 3 (Path u) in
  if length m =? 0 then Err (errorString "unsupported url")
  else Ok {| git_URL := "https://github.com/" +:+ sub m 1 +:+ "/" +:+ sub m 2;
             git_Revision := sub m 3 |}.

(** The function registered for ["codeload.github.com"]: it matches
    against [githubRE] as well. *)
Definition codeloadMapper (u : URL) : Result gitPackageInfo :=
  let m := regexp.FindStringSubmatch patterns.githubRE 3 (Path u) in
  if length m =? 0 then Err (errorString "unsupported url")
  else Ok {| git_URL := "https://github.com/" +:+ sub m 1 +:+ "/" +:+ sub m 2;
             git_Revision := sub m 3 |}.

Definition httpGitMapper : gmap string (URL -> Result gitPackageInfo) :=
  <["github.com" := githubMapper]> (<["codeload.github.com" := codeloadMapper]> ∅).

Section repo.
Context `{Platform}.

(** The loop of [HTTPToGit] over [h.URLs]; a URL that does not parse,
    has no registered host or is refused by its mapper is logged and
    skipped. *)
Fixpoint HTTPToGit_loop (urls : list string) : Result gitPackageInfo :=
  match urls with
  | [] => Err (errorString "no valid url")
  | e :: rest =>
      match url_Parse e with
      | Err _ => HTTPToGit_loop rest
      | Ok u =>
          match httpGitMapper !! Host u with
          | None => HTTPToGit_loop rest
          | Some m =>
              match m u with
              | Err _ => HTTPToGit_loop rest
              | Ok g => Ok g
              end
          end
      end
  end.

Definition HTTPToGit (h : httpPackageInfo) : Result gitPackageInfo :=
  HTTPToGit_loop (URLs h).

End repo.

(** ** Packages [bufio], [strconv], [time] and [path/filepath] *)

(** The bytes [\x00], [\n] and [\r] as strings. *)
Definition NUL : string := String "000"%char EmptyString.
Definition LF : string := String "010"%char EmptyString.
Definition CR : string := String "013"%char EmptyString.

Module bufio.

(** [MaxScanTokenSize = 64 * 1024] *)
Definition MaxScanTokenSize : nat := 64 * 1024.

(** [dropCR]: a terminal carriage return is dropped. *)
Definition dropCR (line : string) : string := strings.TrimSuffix line CR.

(** The tokens a [Scanner] with the default split function [ScanLines]
    delivers for the input [s], and the error [scn.Err()] reports once
    [Scan] has returned false.  A line ends at ["\n"] or at the end of
    the input; a line that does not fit the buffer of
    [MaxScanTokenSize] bytes stops the scanner with [ErrTooLong]. *)
Fixpoint scanLines (fuel : nat) (s : string) : list string * option error :=
  match fuel with
  | O => ([], None)
  | S fuel' =>
      match s with
      | EmptyString => ([], None)
      | _ =>
          match strings.Cut s LF with
          | Some (line, rest) =>
              if MaxScanTokenSize <=? String.length line then ([], Some ErrTooLong)
              else let '(ls, e) := scanLines fuel' rest in (dropCR line :: ls, e)
          | None =>
              if MaxScanTokenSize <=? String.length s then ([], Some ErrTooLong)
              else ([dropCR s], None)
          end
      end
  end.

Definition Scanner_run (s : string) : list string * option error :=
  scanLines (S (String.length s)) s.

End bufio.

Module strconv.

Definition digit (c : ascii) : option Z :=
  let n := nat_of_ascii c in
  if (48 <=? n) && (n <=? 57) then Some (Z.of_nat (n - 48)) else None.

(** The value of a string of decimal digits, [None] on any other byte. *)
Fixpoint digits (acc : Z) (s : string) : option Z :=
  match s with
  | EmptyString => Some acc
  | String c s' =>
      match digit c with
      | Some d => digits (10 * acc + d) s'
      | None => None
      end
  end.

(** [ParseInt(s, 10, 64)]: an optional sign and at least one decimal
    digit; a value outside of [int64] is a range error. *)
Definition ParseInt (s : string) : Result Z :=
  let syntax := Err (NumError "ParseInt" s ErrSyntax) in
  let range := Err (NumError "ParseInt" s ErrRange) in
  match s with
  | EmptyString => syntax
  | String c s' =>
      let '(neg, body) :=
        if Ascii.eqb c "+" then (false, s')
        else if Ascii.eqb c "-" then (true, s')
        else (false, s) in
      match body with
      | EmptyString => syntax
      | _ =>
          match digits 0 body with
          | None => syntax
          | Some un =>
              if negb neg && (2 ^ 63 <=? un)%Z then range
              else if neg && (2 ^ 63 <? un)%Z then range
              else Ok (if neg then (- un)%Z else un)
          end
      end
  end.

End strconv.

(** [time.Time], as the seconds and nanoseconds since the Unix epoch that
    [time.Unix] builds it from. *)
Record Time : Type := mkTime { unix_sec : Z; unix_nsec : Z }.

Definition time_Unix (sec nsec : Z) : Time :=
  {| unix_sec := (sec + nsec / 1000000000)%Z; unix_nsec := (nsec mod 1000000000)%Z |}.

(** ** tracker.go *)

(** [Commit] *)
Record Commit : Type := mkCommit {
  Hash : string;
  Tags : list string;
  Date : Time;
  Title : string
}.

(** [GitRepo] *)
Record GitRepo : Type := mkGitRepo {
  Revision : string;
  URL_ : string;        (* the field [URL] *)
  Dir : string
}.

(** The body of the loop of [parseChangelog] for one line of the log. *)
Definition parseLine (line : string) : Result Commit :=
  let parts := strings.SplitN line NUL 4 in
  if negb (length parts =? 4) then Err (wrongFormat line)
  else
    match strconv.ParseInt (sub parts 2) with
    | Err e => Err e
    | Ok ts =>
        let t :=
          if negb (String.eqb (sub parts 1) EmptyString)
          then map (fun ti => strings.TrimPrefix ti "tag: ") (strings.Split (sub parts 1) ", ")
          else [] in
        Ok {| Hash := sub parts 0; Tags := t; Date := time_Unix ts 0; Title := sub parts 3 |}
    end.

(** [for scn.Scan() { ... cs = append(cs, ...) }]: the commits of the lines
    scanned so far are in [cs]; the first line in a wrong format returns
    its error and no commit. *)
Fixpoint parseLines (cs : list Commit) (lines : list string) : Result (list Commit) :=
  match lines with
  | [] => Ok cs
  | line :: rest =>
      match parseLine line with
      | Err e => Err e
      | Ok c => parseLines (cs ++ [c]) rest
      end
  end.

(** [parseChangelog(rd)], for a reader that delivers the bytes [rd]. *)
Definition parseChangelog (rd : string) : Result (list Commit) :=
  let '(lines, scnErr) := bufio.Scanner_run rd in
  match parseLines [] lines with
  | Err e => Err e
  | Ok cs =>
      match scnErr with
      | Some e => Err e
      | None => Ok cs
      end
  end.

Module filepath.

(** The components of a cleaned path: empty components and [.] are
    dropped, [..] removes the component before it, is dropped at the
    root and is kept at the start of a relative path.  [acc] holds the
    components kept so far, last one first. *)
Fixpoint cleanComponents (rooted : bool) (acc : list string) (elems : list string)
    : list string :=
  match elems with
  | [] => rev acc
  | e :: rest =>
      if String.eqb e EmptyString || String.eqb e "." then cleanComponents rooted acc rest
      else if String.eqb e ".." then
        match acc with
        | top :: acc' =>
            if String.eqb top ".." then cleanComponents rooted (e :: acc) rest
            else cleanComponents rooted acc' rest
        | [] =>
            if rooted then cleanComponents rooted acc rest
            else cleanComponents rooted [e] rest
        end
      else cleanComponents rooted (e :: acc) rest
  end.

(** [Clean(path)] with the separator [/]. *)
Definition Clean (path : string) : string :=
  let rooted := strings.HasPrefix path "/" in
  let body := strings.Join (cleanComponents rooted [] (strings.Split path "/")) "/" in
  if rooted then "/" +:+ body
  else if String.eqb body EmptyString then "." else body.

(** [Join(elem...)]: the elements from the first non-empty one on are
    joined with [/] and cleaned; without such an element the result
    is empty. *)
Fixpoint Join (elem : list string) : string :=
  match elem with
  | [] => EmptyString
  | e :: rest =>
      if String.eqb e EmptyString then Join rest
      else Clean (strings.Join elem "/")
  end.

End filepath.

(** The result of a call that may panic instead of returning. *)
Inductive Outcome (A : Type) : Type :=
| Returns (a : A)
| Panics (msg : string).
Arguments Returns {A} a.
Arguments Panics {A} msg.

(** [Changelog].  The field [Rule RepoRule] is left out: its type is not
    declared in the sources and [NewCommits] does not set it.  [Repo] and
    the elements of [Log] are pointers in Go; [NewCommits] and
    [parseChangelog] only build non-nil ones. *)
Record Changelog : Type := mkChangelog {
  Repo : GitRepo;
  Log : list Commit
}.

(** [TagURL] and [CommitURL] *)
Definition TagURL (cl : Changelog) (tag : string) : string :=
  URL_ (Repo cl) +:+ "/releases/tag/" +:+ tag.

Definition CommitURL (cl : Changelog) (hash : string) : string :=
  URL_ (Repo cl) +:+ "/commit/" +:+ hash.

Section tracker.
Context `{Platform}.

(** The state the program runs in: the world, and the [git] commands
    run so far, oldest first, each with its working directory. *)
Record State : Type := mkState {
  world : World;
  gitCalls : list (string * list string)
}.

(** [var cacheDir = os.TempDir()] *)
Definition cacheDir : string := os_TempDir.

(** [pathUnsafeRE.ReplaceAllString(s, "_")] *)
Definition sanitize (s : string) : string :=
  regexp.ReplaceAllString patterns.pathUnsafeRE s "_".

(** [ensureCacheDir]: the receiver with [Dir] set, or the error. *)
Definition ensureCacheDir (r : GitRepo) (st : State) : Result GitRepo * State :=
  match url_Parse (URL_ r) with
  | Err e => (Err e, st)
  | Ok u =>
      let hostName := sanitize (Host u) in
      let repoName := sanitize (strings.TrimSuffix (strings.TrimPrefix (Path u) "/") ".git") in
      let dir := filepath.Join [cacheDir; hostName; repoName] in
      let '(err, w) := os_MkdirAll dir (world st) in
      let st' := {| world := w; gitCalls := gitCalls st |} in
      match err with
      | Some e => (Err e, st')
      | None => (Ok {| Revision := Revision r; URL_ := URL_ r; Dir := dir |}, st')
      end
  end.

(** [runGit(args...)]: the command runs in [r.Dir]. *)
Definition runGit (r : GitRepo) (args : list string) (st : State) : Result string * State :=
  let '((out, err), w) := exec_git (Dir r) args (world st) in
  let st' := {| world := w; gitCalls := gitCalls st ++ [(Dir r, args)] |} in
  match err with
  | Some e => (Err (gitFailed args out e), st')
  | None => (Ok out, st')
  end.

(** [isDirEmpty(name)] *)
Definition isDirEmpty (name : string) (w : World) : Result bool :=
  match os_Open name w with
  | Err e => Err e
  | Ok f =>
      match File_Readdir f 1 w with
      | (_, Some io_EOF) => Ok true
      | (_, Some e) => Err e
      | (_, None) => Ok false
      end
  end.

Definition cloneArgs (r : GitRepo) : list string := ["clone"; URL_ r; "--quiet"; "."].
Definition pullArgs : list string := ["pull"; "origin"; "master"].

(** [updateCache] *)
Definition updateCache (r : GitRepo) (st : State) : option error * State :=
  match isDirEmpty (Dir r) (world st) with
  | Err e => (Some e, st)
  | Ok isEmpty =>
      if isEmpty then
        match runGit r (cloneArgs r) st with
        | (Err e, st') => (Some e, st')
        | (Ok _, st') => (None, st')
        end
      else
        match runGit r pullArgs st with
        | (Err e, st') => (Some e, st')
        | (Ok _, st') => (None, st')
        end
  end.

(** [NewGitRepo(rev, url)] *)
Definition NewGitRepo (rev url : string) (st : State) : Result GitRepo * State :=
  let r := {| Revision := rev; URL_ := url; Dir := EmptyString |} in
  match ensureCacheDir r st with
  | (Err e, st1) => (Err e, st1)
  | (Ok r1, st1) =>
      match updateCache r1 st1 with
      | (Some e, st2) => (Err e, st2)
      | (None, st2) => (Ok r1, st2)
      end
  end.

Definition isAncestorArgs (fromCommit toCommit : string) : list string :=
  ["merge-base"; "--is-ancestor"; fromCommit; toCommit].

(** [CheckUpdate(fromCommit, toCommit)]: [Ok b] is the pair
    [(b, nil)], [Err e] the pair [(false, e)]. *)
Definition CheckUpdate (r : GitRepo) (fromCommit toCommit : string) (st : State)
    : Result bool * State :=
  match runGit r (isAncestorArgs fromCommit toCommit) st with
  | (Err e, st') => (Err e, st')
  | (Ok _, st') => (Ok true, st')
  end.

Definition logArgs (fromCommit toCommit : string) : list string :=
  ["log"; "--pretty=format:%H%x00%D%x00%ct%x00%s"; "--decorate=short";
   "--decorate-refs=refs/tags"; fromCommit +:+ ".." +:+ toCommit].

(** [CommitLog(fromCommit, toCommit)] *)
Definition CommitLog (r : GitRepo) (fromCommit toCommit : string) (st : State)
    : Result (list Commit) * State :=
  match runGit r (logArgs fromCommit toCommit) st with
  | (Err e, st') => (Err e, st')
  | (Ok output, st') =>
      match parseChangelog output with
      | Err e => (Err e, st')
      | Ok cl => (Ok cl, st')
      end
  end.

(** [NewCommits(rev, url)]: [Ok None] is the pair [(nil, nil)]. *)
Definition NewCommits (rev url : string) (st : State) : Result (option Changelog) * State :=
  match NewGitRepo rev url st with
  | (Err e, st1) => (Err e, st1)
  | (Ok r, st1) =>
      match CheckUpdate r (Revision r) "HEAD" st1 with
      | (Err e, st2) => (Err e, st2)
      | (Ok p, st2) =>
          if negb p then (Ok None, st2)
          else
            match CommitLog r (Revision r) "HEAD" st2 with
            | (Err e, st3) => (Err e, st3)
            | (Ok commits, st3) => (Ok (Some {| Repo := r; Log := commits |}), st3)
            end
      end
  end.

End tracker.

(** ** reporter.go *)

(** [shortHash]: [hash[:6]] panics when [hash] has fewer than 6 bytes. *)
Definition shortHash (hash : string) : Outcome string :=
  if 6 <=? String.length hash then Returns (strings.take 6 hash)
  else Panics "runtime error: slice bounds out of range".

(** The label U+1F3F7 of the template, in UTF-8. *)
Definition labelEmoji : string :=
  String (ascii_of_nat 240) (String (ascii_of_nat 159)
    (String (ascii_of_nat 143) (String (ascii_of_nat 183) EmptyString))).

(** [{{.Log | len}}] prints the length in decimal. *)
Definition itoa (n : nat) : string := NilEmpty.string_of_uint (Nat.to_uint n).

(** [{{- with .Tags}} (<label> {{range .}} [{{.}}]({{. | $.TagURL}}){{- end}}){{- end}}] *)
Definition renderTags (cl : Changelog) (tags : list string) : string :=
  match tags with
  | [] => EmptyString
  | _ =>
      " (" +:+ labelEmoji +:+ " " +:+
      String.concat EmptyString
        (map (fun t => " [" +:+ t +:+ "](" +:+ TagURL cl t +:+ ")") tags) +:+
      ")"
  end.

(** The body of [{{range .Log}} ... {{- end}}] for the commits [cs]: the
    text written, and the message of the panic that stopped the
    execution, if any.  The text in front of the call of [shortHash] is
    already written when the call panics. *)
Fixpoint renderCommits (cl : Changelog) (cs : list Commit) : string * option string :=
  match cs with
  | [] => (EmptyString, None)
  | c :: rest =>
      match shortHash (Hash c) with
      | Panics msg => (LF +:+ "- [`", Some msg)
      | Returns h =>
          let '(out, p) := renderCommits cl rest in
          (LF +:+ "- [`" +:+ h +:+ "`](" +:+ CommitURL cl (Hash c) +:+ ") " +:+ Title c +:+
           renderTags cl (Tags c) +:+ out, p)
      end
  end.

(** The execution of [textReportTmpl] on [cl]. *)
Definition renderReport (cl : Changelog) : string * option string :=
  let head :=
    "# " +:+ URL_ (Repo cl) +:+ " " +:+ LF +:+
    "<details><summary>There are " +:+ itoa (length (Log cl)) +:+
    " new commits.</summary><p>" +:+ LF in
  match renderCommits cl (Log cl) with
  | (body, Some msg) => (head +:+ body, Some msg)
  | (body, None) => (head +:+ body +:+ LF +:+ "</p></details>" +:+ LF, None)
  end.

Section reporter.
Context `{Platform}.

(** [TextReport(w, cl)] for a writer that is the file [f].  The writes
    of [Execute] are gathered into one. *)
Definition TextReport (f : File) (cl : Changelog) (w : World)
    : Outcome (option error) * World :=
  let '(text, stopped) := renderReport cl in
  let '(werr, w') := File_Write f text w in
  match werr, stopped with
  | Some e, _ => (Returns (Some e), w')
  | None, None => (Returns None, w')
  | None, Some msg =>
      if template_safeCall
      then (Returns (Some (ExecError "shortHash" (errorString msg))), w')
      else (Panics msg, w')
  end.

(** ** repo.go: [writeToFile(cl)], for a [cl] that may be nil *)
Definition writeToFile (cl : option Changelog) (w : World) : Outcome (option error) * World :=
  match cl with
  | None => (Panics "runtime error: invalid memory address or nil pointer dereference", w)
  | Some cl =>
      let filedir := filepath.Join [Dir (Repo cl); "report.md"] in
      match os_Create filedir w with
      | (Err e, w1) => (Returns (Some e), w1)
      | (Ok f, w1) =>
          match TextReport f cl w1 with
          | (Panics msg, w2) => (Panics msg, w2)
          | (Returns (Some e), w2) => (Returns (Some e), w2)   (* f.Close(); return err *)
          | (Returns None, w2) => (Returns (File_Close f w2), w2)
          end
      end
  end.

(** ** main: the loop of one worker

    [for gr := range gitRepos { ... }], for a worker that receives the
    repositories [grs].  A failed dependency is logged and skipped; a
    panic ends the program. *)
Fixpoint worker (grs : list gitPackageInfo) (st : State) : Outcome unit * State :=
  match grs with
  | [] => (Returns tt, st)
  | gr :: rest =>
      match NewCommits (git_Revision gr) (git_URL gr) st with
      | (Err _, st1) => worker rest st1
      | (Ok cl, st1) =>
          match writeToFile cl (world st1) with
          | (Panics msg, w) => (Panics msg, {| world := w; gitCalls := gitCalls st1 |})
          | (Returns _, w) => worker rest {| world := w; gitCalls := gitCalls st1 |}
          end
      end
  end.

End reporter.

(** ** A reference platform

    An executable instance of [Platform], used to run the program on
    concrete inputs: a flat file system, remotes that are fixed commit
    graphs, and the four [git] commands the program issues with the exit
    statuses git documents for them. *)

Module sim.

(** *** [url.Parse] on URLs without escapes, user information or
    bracketed hosts (any such URL is refused here). *)

Definition isAlpha (c : ascii) : bool :=
  let n := nat_of_ascii c in ((97 <=? n) && (n <=? 122)) || ((65 <=? n) && (n <=? 90)).

Definition isSchemeChar (c : ascii) : bool :=
  let n := nat_of_ascii c in
  ((48 <=? n) && (n <=? 57)) || Ascii.eqb c "+" || Ascii.eqb c "-" || Ascii.eqb c ".".

(** [getScheme]: [Some (scheme, rest)], or [None] for "missing protocol
    scheme".  [i] is the offset of [s] in [raw]. *)
Fixpoint getScheme (raw : string) (i : nat) (s : string) : option (string * string) :=
  match s with
  | EmptyString => Some (EmptyString, raw)
  | String c s' =>
      if isAlpha c then getScheme raw (S i) s'
      else if isSchemeChar c then
        if i =? 0 then Some (EmptyString, raw) else getScheme raw (S i) s'
      else if Ascii.eqb c ":" then
        if i =? 0 then None else Some (strings.take i raw, s')
      else Some (EmptyString, raw)
  end.

(** [strings.ToLower] on ASCII letters. *)
Fixpoint ToLower (s : string) : string :=
  match s with
  | EmptyString => EmptyString
  | String c s' =>
      let n := nat_of_ascii c in
      String (if (65 <=? n) && (n <=? 90) then ascii_of_nat (n + 32) else c) (ToLower s')
  end.

Definition contains (s sub : string) : bool :=
  match strings.Cut s sub with Some _ => true | None => false end.

Definition cut2 (s sep : string) : string * string :=
  match strings.Cut s sep with
  | Some (a, b) => (a, b)
  | None => (s, EmptyString)
  end.

Definition Parse (rawurl : string) : Result URL :=
  let bad := Err (url_Error "parse" rawurl) in
  if contains rawurl "%" || contains rawurl "@" || contains rawurl "[" then bad
  else
    let '(u, frag) := cut2 rawurl "#" in
    match getScheme u 0 u with
    | None => bad
    | Some (scheme, rest) =>
        let scheme := ToLower scheme in
        let '(rest, query) := cut2 rest "?" in
        if negb (strings.HasPrefix rest "/") then
          if negb (String.eqb scheme EmptyString)
          then Ok (mkURL scheme EmptyString EmptyString query frag)      (* opaque *)
          else if contains (fst (cut2 rest "/")) ":" then bad
          else Ok (mkURL scheme EmptyString rest query frag)
        else if strings.HasPrefix rest "//" &&
                (negb (String.eqb scheme EmptyString) || negb (strings.HasPrefix rest "///"))
        then
          let authority := strings.drop 2 rest in
          match strings.Cut authority "/" with
          | Some (host, path) => Ok (mkURL scheme host ("/" +:+ path) query frag)
          | None => Ok (mkURL scheme authority EmptyString query frag)
          end
        else Ok (mkURL scheme EmptyString rest query frag)
    end.

(** *** Repositories *)

Record CommitObj : Type := mkObj {
  c_hash : string;
  c_parents : list string;
  c_tags : list string;
  c_time : Z;
  c_subject : string
}.

Record Repository : Type := mkRepo {
  objects : list CommitObj;
  head : string          (* the commit of HEAD and of master *)
}.

Definition object (repo : Repository) (h : string) : option CommitObj :=
  find (fun c => String.eqb (c_hash c) h) (objects repo).

(** A revision names a commit: [HEAD], a hash, or a tag. *)
Definition resolve (repo : Repository) (rev : string) : option string :=
  if String.eqb rev "HEAD" then c_hash <$> object repo (head repo)
  else match object repo rev with
       | Some c => Some (c_hash c)
       | None => c_hash <$> find (fun c => existsb (String.eqb rev) (c_tags c)) (objects repo)
       end.

(** The commits reachable from [h], [h] first. *)
Fixpoint reachable (fuel : nat) (repo : Repository) (h : string) : list string :=
  match fuel with
  | O => []
  | S fuel' =>
      match object repo h with
      | None => []
      | Some c => h :: flat_map (reachable fuel' repo) (c_parents c)
      end
  end.

Definition ancestors (repo : Repository) (h : string) : list string :=
  reachable (length (objects repo)) repo h.

Definition inb (h : string) (hs : list string) : bool := existsb (String.eqb h) hs.

Fixpoint dedup (seen : list string) (hs : list string) : list string :=
  match hs with
  | [] => []
  | h :: rest => if inb h seen then dedup seen rest else h :: dedup (h :: seen) rest
  end.

Definition ztoa (z : Z) : string := NilEmpty.string_of_int (Z.to_int z).

(** One record of [git log --pretty=format:%H%x00%D%x00%ct%x00%s]. *)
Definition logRecord (c : CommitObj) : string :=
  c_hash c +:+ NUL +:+
  strings.Join (map (fun t => "tag: " +:+ t) (c_tags c)) ", " +:+ NUL +:+
  ztoa (c_time c) +:+ NUL +:+ c_subject c.

(** *** The world *)

Inductive Node : Type :=
| DirNode (repo : option Repository)   (* a directory; [Some] when it holds a clone *)
| FileNode (content : string).

Record W : Type := mkW {
  fs : gmap string Node;               (* cleaned absolute path to node *)
  remotes : gmap string Repository     (* what each remote URL serves *)
}.

(** The proper prefixes of [s] that end in front of a [/]. *)
Fixpoint parentsOf (acc : string) (s : string) : list string :=
  match s with
  | EmptyString => []
  | String c s' =>
      let here := if Ascii.eqb c "/" && negb (String.eqb acc EmptyString) then [acc] else [] in
      here ++ parentsOf (acc +:+ String c EmptyString) s'
  end.

Definition isFile (w : W) (p : string) : bool :=
  match fs w !! p with Some (FileNode _) => true | _ => false end.

Definition mkdir (p : string) (m : gmap string Node) : gmap string Node :=
  match m !! p with Some _ => m | None => <[p := DirNode None]> m end.

(** A path that exists is not touched: success for a directory, an
    error for a file.  Otherwise the path and its missing parents are
    created. *)
Definition MkdirAll (path : string) (w : W) : option error * W :=
  match fs w !! path with
  | Some (DirNode _) => (None, w)
  | Some (FileNode _) => (Some (PathError "mkdir" path), w)
  | None =>
      let dirs := parentsOf EmptyString path ++ [path] in
      if existsb (isFile w) dirs then (Some (PathError "mkdir" path), w)
      else (None, mkW (foldr mkdir (fs w) dirs) (remotes w))
  end.

Definition Open (name : string) (w : W) : Result File :=
  match fs w !! name with
  | Some _ => Ok name
  | None => Err (PathError "open" name)
  end.

(** The names in directory [d]: [.git] for a clone, and every path
    directly below [d]. *)
Definition entries (d : string) (w : W) : list string :=
  let below := omap (fun kv => strings.Cut (fst kv) (d +:+ "/")) (map_to_list (fs w)) in
  let names := omap (fun ab => if String.eqb (fst ab) EmptyString && negb (contains (snd ab) "/")
                               then Some (snd ab) else None) below in
  match fs w !! d with
  | Some (DirNode (Some _)) => ".git" :: names
  | _ => names
  end.

Definition Readdir (f : File) (n : Z) (w : W) : list string * option error :=
  match fs w !! f with
  | Some (DirNode _) =>
      match entries f w with
      | [] => ([], Some io_EOF)
      | es => (take (Z.to_nat n) es, None)
      end
  | _ => ([], Some (PathError "readdirent" f))
  end.

Definition Create (name : string) (w : W) : Result File * W :=
  match fs w !! name with
  | Some (DirNode _) => (Err (PathError "open" name), w)
  | _ => (Ok name, mkW (<[name := FileNode EmptyString]> (fs w)) (remotes w))
  end.

Definition Write (f : File) (b : string) (w : W) : option error * W :=
  match fs w !! f with
  | Some (FileNode content) => (None, mkW (<[f := FileNode (content +:+ b)]> (fs w)) (remotes w))
  | _ => (Some (PathError "write" f), w)
  end.

Definition Close (f : File) (w : W) : option error := None.

Definition exit (status : Z) (out : string) (w : W) : (string * option error) * W :=
  ((out, if (status =? 0)%Z then None else Some (ExitError status)), w).

(** The commands the program issues. *)
Inductive Command : Type :=
| Clone (url : string)
| Pull
| IsAncestor (a b : string)
| LogRange (range : string).

Definition command (args : list string) : option Command :=
  match args with
  | ["clone"; url; "--quiet"; "."] => Some (Clone url)
  | ["pull"; "origin"; "master"] => Some Pull
  | ["merge-base"; "--is-ancestor"; a; b] => Some (IsAncestor a b)
  | ["log"; "--pretty=format:%H%x00%D%x00%ct%x00%s"; "--decorate=short";
     "--decorate-refs=refs/tags"; range] => Some (LogRange range)
  | _ => None
  end.

(** [git] in directory [dir]:
    - [clone url --quiet .] fills an empty directory from the remote;
    - [pull origin master] needs a clone; remotes are fixed, so the
      clone is already up to date;
    - [merge-base --is-ancestor a b] exits with 0 when [a] is reachable
      from [b] (a commit is reachable from itself), with 1 when it is
      not, with 128 when a revision names no commit;
    - [log ... a..b] prints the commits reachable from [b] and not from
      [a], one record a line, no newline after the last. *)
Definition git (dir : string) (args : list string) (w : W) : (string * option error) * W :=
  match command args, fs w !! dir with
  | Some (Clone url), Some (DirNode None) =>
      match remotes w !! url, entries dir w with
      | Some repo, [] => exit 0 EmptyString (mkW (<[dir := DirNode (Some repo)]> (fs w)) (remotes w))
      | Some _, _ => exit 128 "fatal: destination path '.' already exists and is not an empty directory." w
      | None, _ => exit 128 "fatal: repository not found" w
      end
  | Some (Clone _), Some (DirNode (Some _)) =>
      exit 128 "fatal: destination path '.' already exists and is not an empty directory." w
  | Some Pull, Some (DirNode (Some _)) => exit 0 "Already up to date." w
  | Some (IsAncestor a b), Some (DirNode (Some repo)) =>
      match resolve repo a, resolve repo b with
      | Some ha, Some hb => if inb ha (ancestors repo hb) then exit 0 EmptyString w else exit 1 EmptyString w
      | _, _ => exit 128 "fatal: Not a valid object name" w
      end
  | Some (LogRange range), Some (DirNode (Some repo)) =>
      let '(a, b) := cut2 range ".." in
      match resolve repo a, resolve repo b with
      | Some ha, Some hb =>
          let old := ancestors repo ha in
          let new := filter (fun h => negb (inb h old)) (dedup [] (ancestors repo hb)) in
          exit 0 (strings.Join (map logRecord (omap (object repo) new)) LF) w
      | _, _ => exit 128 "fatal: bad revision" w
      end
  | Some _, _ => exit 128 "fatal: not a git repository (or any of the parent directories): .git" w
  | None, _ => exit 129 "usage: git <command> [<args>]" w
  end.

(** The directory holds a clone. *)
Definition holdsClone (w : W) (dir : string) : Prop :=
  exists repo, fs w !! dir = Some (DirNode (Some repo)).

(** The platform: temporary directory [/tmp], [text/template] as
    [safeCall] says. *)
Definition platform (safeCall : bool) : Platform := {|
  World := W;
  url_Parse := Parse;
  os_TempDir := "/tmp";
  os_MkdirAll := MkdirAll;
  os_Open := Open;
  File_Readdir := Readdir;
  os_Create := Create;
  File_Write := Write;
  File_Close := Close;
  exec_git := git;
  template_safeCall := safeCall
|}.

End sim.

(** ** Notions of the specification and concrete inputs *)

(** The example URLs, as [url.Parse] returns them. *)
Definition archiveURL : URL :=
  mkURL "https" "github.com" "/acme/widget/archive/v1.2.3.tar.gz" "" "".

Definition codeloadURL : URL :=
  mkURL "https" "codeload.github.com"
        "/acme/widget/tar.gz/5d2fd3ccab986d52112bf301d47a819783339d0e" "" "".

(** The number of occurrences of the byte [c] in [s]. *)
Fixpoint countByte (c : ascii) (s : string) : nat :=
  match s with
  | EmptyString => 0
  | String d s' => (if Ascii.eqb d c then 1 else 0) + countByte c s'
  end.

(** A log record is a line; its fields are separated by NUL bytes. *)
Definition fieldCount (line : string) : nat := S (countByte "000" line).

Definition field (line : string) (i : nat) : string := sub (strings.Split line NUL) i.

(** The four fields of a record as [git log] prints it, and the record. *)
Record LogRecord : Type := mkRecord {
  f_hash : string;
  f_tags : string;
  f_epoch : string;
  f_title : string
}.

Definition render (r : LogRecord) : string :=
  f_hash r +:+ NUL +:+ f_tags r +:+ NUL +:+ f_epoch r +:+ NUL +:+ f_title r.

(** Tag field parsing in the words of the specification: the empty field
    has no tags, any other is split on [", "] and each entry loses a
    prefix ["tag: "]. *)
Definition decodeTags (tags : string) : list string :=
  match tags with
  | EmptyString => []
  | _ => map (fun t => strings.TrimPrefix t "tag: ") (strings.Split tags ", ")
  end.

(** The epoch seconds a timestamp field denotes. *)
Definition epochOf (epoch : string) : Z :=
  match strconv.ParseInt epoch with Ok ts => ts | Err _ => 0%Z end.

(** The commit a record stands for. *)
Definition commitOf (r : LogRecord) : Commit :=
  {| Hash := f_hash r; Tags := decodeTags (f_tags r);
     Date := time_Unix (epochOf (f_epoch r)) 0; Title := f_title r |}.

(** A well-formed record [<hash> NUL <tags> NUL <epoch> NUL <title>]:
    no NUL in the first three fields, so that the line has these four
    fields, and a timestamp [ParseInt] accepts. *)
Definition wellFormed (r : LogRecord) : Prop :=
  countByte "000" (f_hash r) = 0 /\
  countByte "000" (f_tags r) = 0 /\
  countByte "000" (f_epoch r) = 0 /\
  isOk (strconv.ParseInt (f_epoch r)) = true.

(** A record the scanner hands over as one line and unchanged: no
    newline in it, no carriage return at its end, shorter than the
    scanner's buffer. *)
Definition scannable (r : LogRecord) : Prop :=
  countByte "010" (render r) = 0 /\
  strings.HasSuffix (render r) CR = false /\
  String.length (render r) < bufio.MaxScanTokenSize.

(** A well-formed record whose title ends in a carriage return. *)
Definition crRecord : LogRecord := mkRecord "abc" "" "1" ("title" +:+ CR).

(** A record of five fields: the title holds a NUL byte. *)
Definition fiveFields : string :=
  "abc" +:+ NUL +:+ NUL +:+ "1" +:+ NUL +:+ "title" +:+ NUL +:+ "more".

(** Two well-formed records, the first with two tags. *)
Definition twoRecords : list LogRecord :=
  [ mkRecord "5d2fd3ccab986d52112bf301d47a819783339d0e" "tag: v1.2.3, tag: latest"
             "1500000000" "Fix the parser";
    mkRecord "0123456789abcdef0123456789abcdef01234567" "" "1499999999" "Initial commit" ].

(** Sanitization in the words of the specification: every run of
    non-word bytes becomes a single filler ["_"].  [inRun] tells that the
    byte in front was a non-word byte. *)
Definition isWord (c : ascii) : bool := existsb (regexp.in_range c) regexp.word_ranges.

Fixpoint collapseRuns (inRun : bool) (s : string) : string :=
  match s with
  | EmptyString => EmptyString
  | String c s' =>
      if isWord c then String c (collapseRuns false s')
      else if inRun then collapseRuns true s'
      else String "_" (collapseRuns true s')
  end.

Definition collapse (s : string) : string := collapseRuns false s.

(** The cache path as the specification words it: the root, the
    sanitized host and the sanitized path, separated by [/]. *)
Definition specCachePath (root : string) (u : URL) : string :=
  root +:+ "/" +:+ collapse (Host u) +:+ "/" +:+ collapse (Path u).

(** The cache path the program derives: the path loses its leading [/]
    and its trailing [.git] before it is sanitized, and the three parts go
    through [filepath.Join]. *)
Definition cachePath (root : string) (u : URL) : string :=
  filepath.Join [root; collapse (Host u);
                 collapse (strings.TrimSuffix (strings.TrimPrefix (Path u) "/") ".git")].

(** A remote and its parsed URL. *)
Definition widgetRemote : string := "https://github.com/acme/widget".
Definition widgetURL : URL := mkURL "https" "github.com" "/acme/widget" "" "".

(** The length of the run of non-word bytes at the start of [s]. *)
Fixpoint runLen (s : string) : nat :=
  match s with
  | EmptyString => 0
  | String c s' => if isWord c then 0 else S (runLen s')
  end.

(** A line the scanner hands over unchanged. *)
Definition plainLine (l : string) : Prop :=
  l <> EmptyString /\ countByte "010" l = 0 /\ strings.HasSuffix l CR = false /\
  String.length l < bufio.MaxScanTokenSize.

(** *** A remote, and the states of a run on the reference platform

    The remote has three commits on its main line, [widget3] the newest
    and the head, and a commit [widgetSide] that is not an ancestor of
    the head. *)
Definition widget1 : string := "1111111111111111111111111111111111111111".
Definition widget2 : string := "2222222222222222222222222222222222222222".
Definition widget3 : string := "3333333333333333333333333333333333333333".
Definition widgetSide : string := "4444444444444444444444444444444444444444".

Definition widgetRepo : sim.Repository :=
  sim.mkRepo
    [ sim.mkObj widget3 [widget2] ["v1.1"] 300 "Third";
      sim.mkObj widget2 [widget1] [] 200 "Second";
      sim.mkObj widget1 [] ["v1.0"] 100 "First";
      sim.mkObj widgetSide [widget1] [] 150 "Side" ]
    widget3.

(** Nothing on disk; the remote is reachable. *)
Definition freshWorld : sim.W := sim.mkW ∅ {[ widgetRemote := widgetRepo ]}.

Definition widgetDir : string := "/tmp/github_com/acme_widget".

(** The mirror of the remote once cloned. *)
Definition widgetMirror (rev : string) : GitRepo :=
  {| Revision := rev; URL_ := widgetRemote; Dir := widgetDir |}.

Definition clonedWorld : sim.W :=
  sim.mkW (<[widgetDir := sim.DirNode (Some widgetRepo)]>
             (<["/tmp/github_com" := sim.DirNode None]> (<["/tmp" := sim.DirNode None]> ∅)))
          {[ widgetRemote := widgetRepo ]}.

(** Nothing on disk, and no remote that answers. *)
Definition offlineWorld : sim.W := sim.mkW ∅ ∅.

(** A change log with a commit whose hash has three bytes. *)
Definition shortHashLog : Changelog :=
  {| Repo := widgetMirror widget1;
     Log := [ {| Hash := widget3; Tags := []; Date := time_Unix 300 0; Title := "Third" |};
              {| Hash := "abc"; Tags := []; Date := time_Unix 200 0; Title := "Second" |} ] |}.

(** The reference platform of the examples, and the state of a run that
    starts in a world. *)
Definition refPlatform : Platform := sim.platform false.

Definition startIn (w : sim.W) : @State refPlatform := @mkState refPlatform w [].

Section sync_policy.
Context `{Platform}.

(** The acquisition that consists of the one [git] command [args], run
    in the directory of [r]: it returns [r] when the command exits with
    0 and the error of the command when it does not. *)
Definition syncBy (args : list string) (r : GitRepo) (st : State) : Result GitRepo * State :=
  match runGit r args st with
  | (Err e, st') => (Err e, st')
  | (Ok _, st') => (Ok r, st')
  end.

End sync_policy.

(** ** main: the pool of workers

    [main] starts [maxConcurrency] goroutines that all run the loop
    [for gr := range gitRepos { NewCommits(...); writeToFile(...) }] over
    one unbuffered channel, fed in order by a producer that closes it at
    the end.  Apart from the channel and the [WaitGroup], the goroutines
    share no synchronisation: there is no mutex in the program.

    The pool is modelled by the place each goroutine is at, and by the
    steps a goroutine can take.  A goroutine inside [NewGitRepo] is
    running, or about to run, the [git clone] or [git pull] of its
    repository in the cache directory of the URL.

    [step] says what can happen next, not what must: a goroutine
    blocked in a [git] command that does not return takes no further
    step, and the runs in which it stays where it is are runs of the
    pool.  A panic in [writeToFile] ends the program: once a goroutine
    has panicked no goroutine takes a step, and [wg.Done()] is not
    reached by the others. *)

Inductive Thread : Type :=
| Receiving                         (* at [range gitRepos], waiting for a value *)
| Syncing (gr : gitPackageInfo)     (* in [NewCommits], inside [NewGitRepo] *)
| Reading (gr : gitPackageInfo)     (* past [NewGitRepo]: [CheckUpdate], [CommitLog], [writeToFile] *)
| Finished                          (* the channel is closed and drained: [wg.Done()] *)
| Panicked.                         (* panicked in [writeToFile]: the program has ended *)

Record Pool : Type := mkPool {
  channel : list gitPackageInfo;     (* what the producer has still to send, in order *)
  threads : list Thread
}.

(** No goroutine has panicked: the program is running. *)
Definition running (ts : list Thread) : Prop := Forall (fun t => t <> Panicked) ts.

Inductive step : Pool -> Pool -> Prop :=
| step_receive (i : nat) (gr : gitPackageInfo) (q : list gitPackageInfo) (ts : list Thread) :
    running ts ->
    ts !! i = Some Receiving ->
    step (mkPool (gr :: q) ts) (mkPool q (<[i := Syncing gr]> ts))
| step_synced (i : nat) (gr : gitPackageInfo) (q : list gitPackageInfo) (ts : list Thread) :
    running ts ->
    ts !! i = Some (Syncing gr) ->
    step (mkPool q ts) (mkPool q (<[i := Reading gr]> ts))
| step_next (i : nat) (gr : gitPackageInfo) (q : list gitPackageInfo) (ts : list Thread) :
    running ts ->
    ts !! i = Some (Reading gr) ->
    step (mkPool q ts) (mkPool q (<[i := Receiving]> ts))
| step_panic (i : nat) (gr : gitPackageInfo) (q : list gitPackageInfo) (ts : list Thread) :
    running ts ->
    ts !! i = Some (Reading gr) ->
    step (mkPool q ts) (mkPool q (<[i := Panicked]> ts))
| step_exit (i : nat) (ts : list Thread) :
    running ts ->
    ts !! i = Some Receiving ->
    step (mkPool [] ts) (mkPool [] (<[i := Finished]> ts)).

(** The pool [main] starts for the repositories [grs]. *)
Definition startPool (maxConcurrency : nat) (grs : list gitPackageInfo) : Pool :=
  mkPool grs (replicate maxConcurrency Receiving).

(** The number of goroutines that are synchronising the mirror of [url]. *)
Definition syncingURL (url : string) (t : Thread) : bool :=
  match t with
  | Syncing gr => String.eqb (git_URL gr) url
  | _ => false
  end.

Definition syncsOf (url : string) (p : Pool) : nat :=
  length (filter (fun t => syncingURL url t = true) (threads p)).

(** Two dependencies on one remote, pinned at different revisions. *)
Definition twoPins : list gitPackageInfo :=
  [mkGit widget1 widgetRemote; mkGit widget2 widgetRemote].

(** ** Further notions used by the properties below *)

(** Every byte of [s] is a word byte. *)
Fixpoint allWord (s : string) : bool :=
  match s with
  | EmptyString => true
  | String c s' => isWord c && allWord s'
  end.

(** No byte [c] in [s], as a boolean. *)
Definition freeOf (c : ascii) (s : string) : bool := countByte c s =? 0.

(** The decoration [git log] prints for the tags [ts] of a commit with
    [--decorate-refs=refs/tags]: ["tag: t1, tag: t2, ..."]. *)
Definition decoration (ts : list string) : string :=
  strings.Join (map (fun t => "tag: " +:+ t) ts) ", ".

(** The three stages of [NewCommits] as [git] commands in directory
    [dir], for a sync command [sync]. *)
Definition pipeline (dir : string) (sync : list string) (rev : string)
    : list (string * list string) :=
  [(dir, sync); (dir, isAncestorArgs rev "HEAD"); (dir, logArgs rev "HEAD")].

(** The change log of the reference remote for a dependency pinned at
    [widget1]. *)
Definition widgetChangelog : Changelog :=
  {| Repo := widgetMirror widget1;
     Log := [ {| Hash := widget3; Tags := ["v1.1"]; Date := time_Unix 300 0; Title := "Third" |};
              {| Hash := widget2; Tags := []; Date := time_Unix 200 0; Title := "Second" |} ] |}.

(** A remote whose head has a hash of three bytes, and a world in which
    it is reachable. *)
Definition shortRemote : string := "https://github.com/acme/short".

Definition shortRepo : sim.Repository :=
  sim.mkRepo [ sim.mkObj "abc" ["0123456"] [] 20 "Head"; sim.mkObj "0123456" [] [] 10 "Root" ]
             "abc".

Definition shortWorld : sim.W := sim.mkW ∅ {[ shortRemote := shortRepo ]}.

(** The entry of the report for one commit, its hash having six bytes
    or more. *)
Definition reportEntry (cl : Changelog) (c : Commit) : string :=
  LF +:+ "- [`" +:+ strings.take 6 (Hash c) +:+ "`](" +:+ CommitURL cl (Hash c) +:+ ") " +:+
  Title c +:+ renderTags cl (Tags c).

Definition reportHead (cl : Changelog) : string :=
  "# " +:+ URL_ (Repo cl) +:+ " " +:+ LF +:+
  "<details><summary>There are " +:+ itoa (length (Log cl)) +:+
  " new commits.</summary><p>" +:+ LF.

Definition reportFoot : string := LF +:+ "</p></details>" +:+ LF.

(** The reference remote written with the suffix [.git]. *)
Definition widgetRemoteGit : string := "https://github.com/acme/widget.git".
Definition widgetURLGit : URL := mkURL "https" "github.com" "/acme/widget.git" "" "".


(** *** What a pattern matches

    [Matches r pos a rest caps caps'] says that [r] matches the text [a]
    at offset [pos] of the input, with [rest] following it, and turns the
    captures [caps] into [caps'].  It is the declarative reading of the
    patterns, against which the backtracking matcher is checked. *)
Inductive Matches : regexp.Regexp -> nat -> string -> string -> regexp.Caps -> regexp.Caps -> Prop :=
| M_Empty pos rest caps :
    Matches regexp.Empty pos EmptyString rest caps caps
| M_Lit c pos rest caps :
    Matches (regexp.Lit c) pos (String c EmptyString) rest caps caps
| M_Class neg ranges c pos rest caps :
    regexp.class_matches neg ranges c = true ->
    Matches (regexp.Class neg ranges) pos (String c EmptyString) rest caps caps
| M_Cat r1 r2 pos a b rest caps caps1 caps2 :
    Matches r1 pos a (b +:+ rest) caps caps1 ->
    Matches r2 (pos + String.length a) b rest caps1 caps2 ->
    Matches (regexp.Cat r1 r2) pos (a +:+ b) rest caps caps2
| M_AltL r1 r2 pos a rest caps caps' :
    Matches r1 pos a rest caps caps' ->
    Matches (regexp.Alt r1 r2) pos a rest caps caps'
| M_AltR r1 r2 pos a rest caps caps' :
    Matches r2 pos a rest caps caps' ->
    Matches (regexp.Alt r1 r2) pos a rest caps caps'
| M_PlusOne r pos a rest caps caps' :
    Matches r pos a rest caps caps' ->
    Matches (regexp.Plus r) pos a rest caps caps'
| M_PlusMore r pos a b rest caps caps1 caps2 :
    Matches r pos a (b +:+ rest) caps caps1 ->
    a <> EmptyString ->
    Matches (regexp.Plus r) (pos + String.length a) b rest caps1 caps2 ->
    Matches (regexp.Plus r) pos (a +:+ b) rest caps caps2
| M_Group i r pos a rest caps caps' :
    Matches r pos a rest caps caps' ->
    Matches (regexp.Group i r) pos a rest caps ((i, a) :: caps')
| M_Begin rest caps :
    Matches regexp.BeginText 0 EmptyString rest caps caps
| M_End pos caps :
    Matches regexp.EndText pos EmptyString EmptyString caps caps.

(** A path segment: not empty, no [/] in it. *)
Definition segment (s : string) : Prop := s <> EmptyString /\ countByte "/" s = 0.

(** The paths the archive pattern is written for:
    [/owner/repo/archive/rev] or [/owner/repo/releases/download/rev],
    followed by [.tar.gz], by [.zip] or by [/file]. *)
Definition archiveShape (path owner repo rev : string) : Prop :=
  segment owner /\ segment repo /\ segment rev /\
  exists mid tail,
    path = "/" +:+ owner +:+ "/" +:+ repo +:+ "/" +:+ mid +:+ "/" +:+ rev +:+ tail /\
    (mid = "archive" \/ mid = "releases/download") /\
    (tail = ".tar.gz" \/ tail = ".zip" \/ exists file, segment file /\ tail = "/" +:+ file).

(** The coordinate of a repository of github.com. *)
Definition githubCoordinate (owner repo rev : string) : gitPackageInfo :=
  {| git_Revision := rev; git_URL := "https://github.com/" +:+ owner +:+ "/" +:+ repo |}.

Section candidates.
Context `{Platform}.

(** What one candidate URL resolves to, if it does: it must parse, its
    host must have a mapper, and the mapper must accept it. *)
Definition candidate (e : string) : option gitPackageInfo :=
  match url_Parse e with
  | Err _ => None
  | Ok u =>
      match httpGitMapper !! Host u with
      | None => None
      | Some m => match m u with Ok g => Some g | Err _ => None end
      end
  end.

End candidates.

(** Where a run of non-slash bytes ends: at the end of the input or in
    front of a slash. *)
Definition stopsRun (s : string) : Prop :=
  match s with
  | EmptyString => True
  | String c _ => c = "/"%char
  end.

(** The end of [githubRE], from the slash in front of the revision on:
    [/([^/]+)(?:\.(?:tar\.gz|zip)|/[^/]+)$]. *)
Definition githubTailRE : regexp.Regexp :=
  patterns.cats
    [ regexp.Lit "/"; regexp.Group 3 (regexp.Plus regexp.notSlash);
      regexp.Alt (regexp.Cat (regexp.Lit ".") (regexp.Alt (regexp.Str "tar.gz") (regexp.Str "zip")))
                 (regexp.Cat (regexp.Lit "/") (regexp.Plus regexp.notSlash));
      regexp.EndText ].

(** ** repo.go: from a build rule to a package ([resolveRule])

    A rule of the query result, as its getters show it: the class, the
    name and the attributes, each attribute with its name, its string
    value and its string list value. *)

Record Attribute : Type := mkAttr {
  attr_Name : string;                  (* a.GetName() *)
  attr_StringValue : string;           (* a.GetStringValue() *)
  attr_StringListValue : list string   (* a.GetStringListValue() *)
}.

Record Rule : Type := mkRule {
  rule_RuleClass : string;             (* rl.GetRuleClass() *)
  rule_Name : string;                  (* rl.GetName() *)
  rule_Attribute : list Attribute      (* rl.GetAttribute() *)
}.

(** [goPackageInfo] *)
Record goPackageInfo : Type := mkGo {
  go_Revision : string;
  go_ImportPath : string
}.

(** The three kinds of package a rule resolves to. *)
Inductive repoRule : Type :=
| GoPackage (g : goPackageInfo)
| GitPackage (g : gitPackageInfo)
| HTTPPackage (h : httpPackageInfo).

(** The body of the loop over the attributes of a [go_repository]. *)
Definition goAttribute (g : goPackageInfo) (a : Attribute) : goPackageInfo :=
  if String.eqb (attr_Name a) "importpath"
  then {| go_Revision := go_Revision g; go_ImportPath := attr_StringValue a |}
  else if String.eqb (attr_Name a) "tag" || String.eqb (attr_Name a) "commit"
  then if negb (String.eqb (attr_StringValue a) EmptyString)
       then {| go_Revision := attr_StringValue a; go_ImportPath := go_ImportPath g |}
       else g
  else g.

(** The body of the loop for a [git_repository]. *)
Definition gitAttribute (g : gitPackageInfo) (a : Attribute) : gitPackageInfo :=
  if String.eqb (attr_Name a) "remote"
  then {| git_Revision := git_Revision g; git_URL := attr_StringValue a |}
  else if String.eqb (attr_Name a) "tag" || String.eqb (attr_Name a) "commit"
  then if negb (String.eqb (attr_StringValue a) EmptyString)
       then {| git_Revision := attr_StringValue a; git_URL := git_URL g |}
       else g
  else g.

(** The body of the loop for an [http_archive]: [break] leaves the
    [switch], and a case that does nothing does not fall through. *)
Definition httpAttribute (h : httpPackageInfo) (a : Attribute) : httpPackageInfo :=
  if String.eqb (attr_Name a) "url"
  then if negb (String.eqb (attr_StringValue a) EmptyString)
       then {| URLs := [attr_StringValue a]; Name := Name h |}
       else h
  else if String.eqb (attr_Name a) "urls"
  then if 0 <? length (attr_StringListValue a)
       then {| URLs := attr_StringListValue a; Name := Name h |}
       else h
  else h.

(** [resolveRule(rl)].  The source has no [return] for a rule of
    another class: [None].  The composite literal of the
    [git_repository] case names a field [Name] that [gitPackageInfo]
    does not declare; it is left out. *)
Definition resolveRule (rl : Rule) : option repoRule :=
  let class := rule_RuleClass rl in
  if String.eqb class "go_repository" then
    Some (GoPackage (fold_left goAttribute (rule_Attribute rl) (mkGo EmptyString EmptyString)))
  else if String.eqb class "git_repository" then
    Some (GitPackage (fold_left gitAttribute (rule_Attribute rl) (mkGit EmptyString EmptyString)))
  else if String.eqb class "http_archive" || String.eqb class "new_http_archive" then
    Some (HTTPPackage (fold_left httpAttribute (rule_Attribute rl) (mkHTTP [] (rule_Name rl))))
  else None.

(** *** What the loops compute, in closed form *)

(** The values of the attributes that set the revision: those named
    [tag] or [commit] with a value that is not empty. *)
Definition revisionValues (attrs : list Attribute) : list string :=
  map attr_StringValue
    (filter (fun a => (String.eqb (attr_Name a) "tag" || String.eqb (attr_Name a) "commit")
                      && negb (String.eqb (attr_StringValue a) EmptyString) = true) attrs).

(** The values of the attributes named [name]. *)
Definition valuesOf (name : string) (attrs : list Attribute) : list string :=
  map attr_StringValue (filter (fun a => String.eqb (attr_Name a) name = true) attrs).

(** The URL lists the attributes of an [http_archive] set: a [url] that
    is not empty gives a list of one, a [urls] that is not empty gives
    itself. *)
Definition urlLists (attrs : list Attribute) : list (list string) :=
  omap (fun a =>
          if String.eqb (attr_Name a) "url"
          then if negb (String.eqb (attr_StringValue a) EmptyString)
               then Some [attr_StringValue a] else None
          else if String.eqb (attr_Name a) "urls"
          then if 0 <? length (attr_StringListValue a)
               then Some (attr_StringListValue a) else None
          else None) attrs.

(** A rule with a tag, an empty commit and two URL attributes. *)
Definition sampleAttributes : list Attribute :=
  [ mkAttr "name" "widget" []; mkAttr "remote" "https://github.com/acme/widget" [];
    mkAttr "tag" "v1.0" []; mkAttr "commit" "" [];
    mkAttr "url" "https://github.com/acme/widget/archive/v1.0.zip" [];
    mkAttr "urls" "" ["https://mirror.example/widget.zip";
                      "https://github.com/acme/widget/archive/v1.0.tar.gz"] ].

(** * Properties *)

(** A pair is known by its first component and its own second one. *)
Lemma pair_eq_fst {A B : Type} (p : A * B) (a : A) : fst p = a -> p = (a, snd p).
Proof. intros <-. apply surjective_pairing. Qed.

(** ** Resolution of archive URLs (repo.go) *)

Lemma httpGitMapper_github : httpGitMapper !! "github.com" = Some githubMapper.
Proof. unfold httpGitMapper. apply lookup_insert_eq. Qed.

Lemma httpGitMapper_codeload :
  httpGitMapper !! "codeload.github.com" = Some codeloadMapper.
Proof.
  unfold httpGitMapper.
  rewrite lookup_insert_ne by discriminate.
  apply lookup_insert_eq.
Qed.

(** The hosts with a registered mapper are exactly these two. *)
Lemma httpGitMapper_hosts (host : string) :
  is_Some (httpGitMapper !! host) <-> host = "github.com" \/ host = "codeload.github.com".
Proof.
  unfold httpGitMapper. split.
  - intros [m Hm].
    destruct (decide (host = "github.com")) as [->|Hne1]; [now left|].
    destruct (decide (host = "codeload.github.com")) as [->|Hne2]; [now right|].
    rewrite lookup_insert_ne in Hm by congruence.
    rewrite lookup_insert_ne in Hm by congruence.
    rewrite lookup_empty in Hm. discriminate.
  - intros [-> | ->]; eexists.
    + apply httpGitMapper_github.
    + apply httpGitMapper_codeload.
Qed.

(** What the two patterns do on the paths of the examples. *)
Lemma githubRE_archive :
  regexp.FindStringSubmatch patterns.githubRE 3 "/acme/widget/archive/v1.2.3.tar.gz"
  = ["/acme/widget/archive/v1.2.3.tar.gz"; "acme"; "widget"; "v1.2.3"].
Proof. vm_compute. reflexivity. Qed.

Lemma githubRE_codeload_path :
  regexp.FindStringSubmatch patterns.githubRE 3
    "/acme/widget/tar.gz/5d2fd3ccab986d52112bf301d47a819783339d0e" = [].
Proof. vm_compute. reflexivity. Qed.

(** The pattern written for codeload paths does match the path, with the
    groups the coordinate needs; no mapper uses it. *)
Lemma githubCodeloadRE_codeload_path :
  regexp.FindStringSubmatch patterns.githubCodeloadRE 3
    "/acme/widget/tar.gz/5d2fd3ccab986d52112bf301d47a819783339d0e"
  = ["/acme/widget/tar.gz/5d2fd3ccab986d52112bf301d47a819783339d0e";
     "acme"; "widget"; "5d2fd3ccab986d52112bf301d47a819783339d0e"].
Proof. vm_compute. reflexivity. Qed.

Section repo_properties.
Context `{Platform}.

(** A URL that parses, has a registered host and is accepted by the
    mapper of the host ends the loop: later URLs are not looked at. *)
Lemma HTTPToGit_first_match (e : string) (rest : list string) (u : URL) m g :
  url_Parse e = Ok u -> httpGitMapper !! Host u = Some m -> m u = Ok g ->
  HTTPToGit_loop (e :: rest) = Ok g.
Proof. intros Hu Hm Hg. simpl. rewrite Hu, Hm, Hg. reflexivity. Qed.

(** A URL refused by the mapper of its host is skipped. *)
Lemma HTTPToGit_skip (e : string) (rest : list string) (u : URL) m err :
  url_Parse e = Ok u -> httpGitMapper !! Host u = Some m -> m u = Err err ->
  HTTPToGit_loop (e :: rest) = HTTPToGit_loop rest.
Proof. intros Hu Hm Hg. simpl. rewrite Hu, Hm, Hg. reflexivity. Qed.

(** C4.  The archive URL
    [https://github.com/acme/widget/archive/v1.2.3.tar.gz], parsed by
    [url.Parse] into host [github.com] and path
    [/acme/widget/archive/v1.2.3.tar.gz], resolves to the coordinate
    with url [https://github.com/acme/widget] and revision [v1.2.3];
    being the first candidate, any further candidates are ignored. *)
Theorem archive_url_resolves (name : string) (rest : list string) (u : URL) :
  url_Parse "https://github.com/acme/widget/archive/v1.2.3.tar.gz" = Ok u ->
  Host u = "github.com" ->
  Path u = "/acme/widget/archive/v1.2.3.tar.gz" ->
  HTTPToGit {| URLs := "https://github.com/acme/widget/archive/v1.2.3.tar.gz" :: rest;
               Name := name |}
  = Ok {| git_Revision := "v1.2.3"; git_URL := "https://github.com/acme/widget" |}.
Proof.
  intros Hu Hhost Hpath. unfold HTTPToGit. cbn [URLs].
  apply HTTPToGit_first_match with (u := u) (m := githubMapper); [exact Hu | |].
  - rewrite Hhost. apply httpGitMapper_github.
  - unfold githubMapper. rewrite Hpath, githubRE_archive. reflexivity.
Qed.

(** C3.  The codeload URL of the specification, parsed into host
    [codeload.github.com] and path [/acme/widget/tar.gz/5d2f...], is
    refused: the mapper of [codeload.github.com] matches the path
    against [githubRE], which wants [archive] or [releases/download]
    where the path has [tar.gz]; as the only candidate, resolution ends
    in the error "no valid url". *)
Theorem codeload_url_is_refused (name : string) (u : URL) :
  url_Parse "https://codeload.github.com/acme/widget/tar.gz/5d2fd3ccab986d52112bf301d47a819783339d0e"
    = Ok u ->
  Host u = "codeload.github.com" ->
  Path u = "/acme/widget/tar.gz/5d2fd3ccab986d52112bf301d47a819783339d0e" ->
  HTTPToGit {| URLs := ["https://codeload.github.com/acme/widget/tar.gz/5d2fd3ccab986d52112bf301d47a819783339d0e"];
               Name := name |}
  = Err (errorString "no valid url").
Proof.
  intros Hu Hhost Hpath. unfold HTTPToGit. cbn [URLs].
  rewrite HTTPToGit_skip with (u := u) (m := codeloadMapper)
                              (err := errorString "unsupported url").
  - reflexivity.
  - exact Hu.
  - rewrite Hhost. apply httpGitMapper_codeload.
  - unfold codeloadMapper. rewrite Hpath, githubRE_codeload_path. reflexivity.
Qed.

End repo_properties.

Lemma archive_url_resolves_witness :
  @HTTPToGit (sim.platform true)
    {| URLs := ["https://github.com/acme/widget/archive/v1.2.3.tar.gz"]; Name := "widget" |}
  = Ok {| git_Revision := "v1.2.3"; git_URL := "https://github.com/acme/widget" |}.
Proof.
  apply (@archive_url_resolves (sim.platform true) "widget" [] archiveURL);
    vm_compute; reflexivity.
Defined.

Lemma codeload_url_is_refused_witness :
  @HTTPToGit (sim.platform true)
    {| URLs := ["https://codeload.github.com/acme/widget/tar.gz/5d2fd3ccab986d52112bf301d47a819783339d0e"];
       Name := "widget" |}
  = Err (errorString "no valid url").
Proof.
  apply (@codeload_url_is_refused (sim.platform true) "widget" codeloadURL);
    vm_compute; reflexivity.
Defined.

(** ** Facts on strings *)

Section string_facts.

Lemma str_app_cons (c : ascii) (s t : string) : String c s +:+ t = String c (s +:+ t).
Proof. reflexivity. Qed.

Lemma str_app_nil_l (t : string) : EmptyString +:+ t = t.
Proof. reflexivity. Qed.

Lemma str_app_nil_r (s : string) : s +:+ EmptyString = s.
Proof. induction s as [|c s IH]; [reflexivity|]. rewrite str_app_cons, IH. reflexivity. Qed.

Lemma str_app_assoc (s t u : string) : (s +:+ t) +:+ u = s +:+ (t +:+ u).
Proof. induction s as [|c s IH]; [reflexivity|]. rewrite !str_app_cons, IH. reflexivity. Qed.

Lemma str_length_app (s t : string) :
  String.length (s +:+ t) = String.length s + String.length t.
Proof. induction s as [|c s IH]; [reflexivity|]. rewrite str_app_cons. simpl. rewrite IH. reflexivity. Qed.

Lemma countByte_app (c : ascii) (s t : string) :
  countByte c (s +:+ t) = countByte c s + countByte c t.
Proof.
  induction s as [|d s IH]; [reflexivity|].
  rewrite str_app_cons. simpl. rewrite IH. lia.
Qed.

Lemma drop_0 (s : string) : strings.drop 0 s = s.
Proof. destruct s; reflexivity. Qed.

Lemma take_length_app (s t : string) : strings.take (String.length s) (s +:+ t) = s.
Proof.
  induction s as [|c s IH].
  - destruct t; reflexivity.
  - rewrite str_app_cons. simpl. rewrite IH. reflexivity.
Qed.

Lemma drop_length_app (s t : string) : strings.drop (String.length s) (s +:+ t) = t.
Proof.
  induction s as [|c s IH].
  - apply drop_0.
  - rewrite str_app_cons. exact IH.
Qed.

Lemma take_drop (n : nat) (s : string) : strings.take n s +:+ strings.drop n s = s.
Proof.
  revert s. induction n as [|n IH]; intros [|c s]; try reflexivity.
  cbn [strings.take strings.drop]. rewrite str_app_cons, IH. reflexivity.
Qed.

Lemma length_take (n : nat) (s : string) :
  String.length (strings.take n s) = Nat.min n (String.length s).
Proof.
  revert s. induction n as [|n IH]; intros [|c s]; simpl; try reflexivity.
  rewrite IH. reflexivity.
Qed.

Lemma length_drop (n : nat) (s : string) :
  String.length (strings.drop n s) = String.length s - n.
Proof.
  revert s. induction n as [|n IH]; intros [|c s]; simpl; try reflexivity.
  apply IH.
Qed.

(** [Cut] with a separator of one byte. *)
Lemma HasPrefix_byte (d c : ascii) (s : string) :
  strings.HasPrefix (String d s) (String c EmptyString) = Ascii.eqb d c.
Proof.
  unfold strings.HasPrefix. simpl.
  destruct (ascii_dec c d) as [->|Hne].
  - rewrite Ascii.eqb_refl. destruct s; reflexivity.
  - symmetry. apply Ascii.eqb_neq. congruence.
Qed.

Lemma Cut_byte_nil (c : ascii) : strings.Cut EmptyString (String c EmptyString) = None.
Proof. reflexivity. Qed.

Lemma Cut_byte_cons (c d : ascii) (s : string) :
  strings.Cut (String d s) (String c EmptyString) =
  if Ascii.eqb d c then Some (EmptyString, s)
  else match strings.Cut s (String c EmptyString) with
       | Some (a, b) => Some (String d a, b)
       | None => None
       end.
Proof.
  cbn [strings.Cut]. rewrite HasPrefix_byte.
  destruct (Ascii.eqb d c); [|reflexivity].
  simpl. rewrite ?drop_0. reflexivity.
Qed.

Lemma Cut_byte_none (c : ascii) (s : string) :
  countByte c s = 0 -> strings.Cut s (String c EmptyString) = None.
Proof.
  induction s as [|d s IH]; intros Hc; [reflexivity|].
  rewrite Cut_byte_cons. simpl in Hc.
  destruct (Ascii.eqb d c); [discriminate|].
  rewrite IH by exact Hc. reflexivity.
Qed.

Lemma Cut_byte_app (c : ascii) (a b : string) :
  countByte c a = 0 ->
  strings.Cut (a +:+ String c b) (String c EmptyString) = Some (a, b).
Proof.
  induction a as [|d a IH]; intros Hc.
  - rewrite str_app_nil_l, Cut_byte_cons, Ascii.eqb_refl. reflexivity.
  - rewrite str_app_cons, Cut_byte_cons. simpl in Hc.
    destruct (Ascii.eqb d c); [discriminate|].
    rewrite IH by exact Hc. reflexivity.
Qed.

Lemma Cut_byte_some (c : ascii) (s a b : string) :
  strings.Cut s (String c EmptyString) = Some (a, b) ->
  s = a +:+ String c b /\ countByte c a = 0.
Proof.
  revert a. induction s as [|d s IH]; intros a Hcut; [discriminate|].
  rewrite Cut_byte_cons in Hcut.
  destruct (Ascii.eqb d c) eqn:Hdc.
  - apply Ascii.eqb_eq in Hdc. subst d. inversion Hcut; subst. split; reflexivity.
  - destruct (strings.Cut s (String c EmptyString)) as [[a' b']|] eqn:Hs; [|discriminate].
    inversion Hcut; subst. destruct (IH a' eq_refl) as [-> Ha'].
    split; [reflexivity|]. simpl. rewrite Hdc. exact Ha'.
Qed.

Lemma Cut_byte_none_inv (c : ascii) (s : string) :
  strings.Cut s (String c EmptyString) = None -> countByte c s = 0.
Proof.
  induction s as [|d s IH]; intros Hcut; [reflexivity|].
  rewrite Cut_byte_cons in Hcut. simpl.
  destruct (Ascii.eqb d c); [discriminate|].
  destruct (strings.Cut s (String c EmptyString)) as [[a b]|]; [discriminate|].
  apply IH. reflexivity.
Qed.

(** The number of pieces [genSplit] returns for a separator of one
    byte: one more than the cuts made, which are as many as allowed and
    as the separator occurs. *)
Lemma genSplit_byte_length (c : ascii) (cuts fuel : nat) (s : string) :
  String.length s < fuel ->
  length (strings.genSplit fuel cuts s (String c EmptyString))
  = S (Nat.min cuts (countByte c s)).
Proof.
  revert fuel s. induction cuts as [|cuts IH]; intros fuel s Hfuel.
  - destruct fuel; reflexivity.
  - destruct fuel as [|fuel]; [lia|]. cbn [strings.genSplit].
    destruct (strings.Cut s (String c EmptyString)) as [[a b]|] eqn:Hcut.
    + apply Cut_byte_some in Hcut as [-> Ha].
      rewrite countByte_app, Ha. simpl. rewrite Ascii.eqb_refl.
      rewrite IH.
      * simpl. reflexivity.
      * rewrite str_length_app in Hfuel. simpl in Hfuel. lia.
    + apply Cut_byte_none_inv in Hcut. rewrite Hcut. simpl. lia.
Qed.

(** The pieces in front of the last one do not depend on the number of
    cuts allowed. *)
Lemma genSplit_byte_lookup (c : ascii) (i cuts1 cuts2 fuel1 fuel2 : nat) (s : string) :
  String.length s < fuel1 -> String.length s < fuel2 ->
  i < cuts1 -> i < cuts2 ->
  strings.genSplit fuel1 cuts1 s (String c EmptyString) !! i
  = strings.genSplit fuel2 cuts2 s (String c EmptyString) !! i.
Proof.
  revert cuts1 cuts2 fuel1 fuel2 s.
  induction i as [|i IH]; intros cuts1 cuts2 fuel1 fuel2 s Hf1 Hf2 Hc1 Hc2;
    destruct cuts1 as [|cuts1]; try lia; destruct cuts2 as [|cuts2]; try lia;
    destruct fuel1 as [|fuel1]; try lia; destruct fuel2 as [|fuel2]; try lia;
    cbn [strings.genSplit];
    destruct (strings.Cut s (String c EmptyString)) as [[a b]|] eqn:Hcut;
    try reflexivity.
  apply Cut_byte_some in Hcut as [-> Ha].
  rewrite str_length_app in Hf1, Hf2. simpl in Hf1, Hf2.
  simpl. apply IH; lia.
Qed.

End string_facts.

(** ** The change log parser (tracker.go) *)

Section parse_properties.

Lemma countByte_le_length (c : ascii) (s : string) : countByte c s <= String.length s.
Proof. induction s as [|d s IH]; simpl; [lia|]. destruct (Ascii.eqb d c); lia. Qed.

Lemma SplitN4_unfold (line : string) :
  strings.SplitN line NUL 4 = strings.genSplit (S (String.length line)) 3 line NUL.
Proof. reflexivity. Qed.

Lemma Split_unfold (line : string) :
  strings.Split line NUL
  = strings.genSplit (S (String.length line)) (String.length line) line NUL.
Proof. reflexivity. Qed.

(** [SplitN(line, "\x00", 4)] has four parts exactly when the line has
    at least four fields. *)
Lemma SplitN4_length (line : string) :
  length (strings.SplitN line NUL 4) = Nat.min 4 (fieldCount line).
Proof.
  rewrite SplitN4_unfold. unfold NUL, fieldCount.
  rewrite genSplit_byte_length by lia. reflexivity.
Qed.

(** With four fields or more, the third part is the third field. *)
Lemma SplitN4_third (line : string) :
  4 <= fieldCount line -> sub (strings.SplitN line NUL 4) 2 = field line 2.
Proof.
  intros Hn. unfold field, sub. rewrite SplitN4_unfold, Split_unfold. unfold NUL.
  unfold fieldCount in Hn. pose proof (countByte_le_length "000" line).
  f_equal. apply genSplit_byte_lookup; lia.
Qed.

(** A line is accepted exactly when it has at least four fields and a
    third field that [ParseInt] accepts. *)
Lemma parseLine_ok_iff (line : string) :
  isOk (parseLine line) = true <->
  4 <= fieldCount line /\ isOk (strconv.ParseInt (field line 2)) = true.
Proof.
  unfold parseLine.
  pose proof (SplitN4_length line) as Hlen.
  destruct (length (strings.SplitN line NUL 4) =? 4) eqn:H4; simpl.
  - apply Nat.eqb_eq in H4.
    assert (4 <= fieldCount line) as Hn by lia.
    rewrite <- (SplitN4_third line Hn).
    destruct (strconv.ParseInt (sub (strings.SplitN line NUL 4) 2)); simpl;
      intuition discriminate.
  - apply Nat.eqb_neq in H4. split; [discriminate|]. intros [Hn _]. lia.
Qed.

Lemma parseLines_app (cs : list Commit) (lines : list string) :
  parseLines cs lines =
  match parseLines [] lines with
  | Ok cs' => Ok (cs ++ cs')
  | Err e => Err e
  end.
Proof.
  revert cs. induction lines as [|line rest IH]; intros cs; simpl.
  - rewrite app_nil_r. reflexivity.
  - destruct (parseLine line) as [c|e]; [|reflexivity].
    rewrite (IH (cs ++ [c])), (IH [c]).
    destruct (parseLines [] rest); [|reflexivity].
    rewrite <- app_assoc. reflexivity.
Qed.

Lemma parseLines_ok_iff (cs : list Commit) (lines : list string) :
  isOk (parseLines cs lines) = true <->
  Forall (fun line => isOk (parseLine line) = true) lines.
Proof.
  revert cs. induction lines as [|line rest IH]; intros cs; simpl.
  - split; [constructor | reflexivity].
  - destruct (parseLine line) as [c|e] eqn:Hline.
    + rewrite IH. split.
      * intros Hrest. constructor; [rewrite Hline; reflexivity | exact Hrest].
      * intros Hall. inversion Hall; assumption.
    + split; [discriminate|]. intros Hall. inversion Hall as [|? ? Hl _]; subst.
      rewrite Hline in Hl. discriminate.
Qed.

(** Success returns one commit for each line: nothing is left out. *)
Lemma parseLines_ok_length (cs cs' : list Commit) (lines : list string) :
  parseLines cs lines = Ok cs' -> length cs' = length cs + length lines.
Proof.
  revert cs. induction lines as [|line rest IH]; intros cs; simpl.
  - intros [= <-]. lia.
  - destruct (parseLine line) as [c|e]; [|discriminate].
    intros Hrest. apply IH in Hrest. rewrite length_app in Hrest. simpl in Hrest. lia.
Qed.

Lemma parseChangelog_ok_iff (rd : string) :
  isOk (parseChangelog rd) = true <->
  snd (bufio.Scanner_run rd) = None /\
  Forall (fun line => isOk (parseLine line) = true) (fst (bufio.Scanner_run rd)).
Proof.
  unfold parseChangelog.
  destruct (bufio.Scanner_run rd) as [lines scnErr]. simpl.
  rewrite <- (parseLines_ok_iff [] lines).
  destruct (parseLines [] lines) as [cs|e]; simpl.
  - destruct scnErr; simpl; intuition discriminate.
  - intuition discriminate.
Qed.

(** C5, as amended.  The extraction succeeds exactly when the scanner
    reports no error and every line it delivers has at least four
    NUL-separated fields and a third field that [ParseInt] accepts as
    a decimal [int64].  Hence one line with fewer than four fields or
    a bad timestamp fails the whole extraction; a line with more than
    four fields does not. *)
Theorem extraction_succeeds_iff (rd : string) :
  isOk (parseChangelog rd) = true <->
  snd (bufio.Scanner_run rd) = None /\
  Forall (fun line => 4 <= fieldCount line /\
                      isOk (strconv.ParseInt (field line 2)) = true)
         (fst (bufio.Scanner_run rd)).
Proof.
  rewrite parseChangelog_ok_iff.
  split; intros [Hscn Hall]; (split; [exact Hscn|]);
    eapply Forall_impl; try exact Hall; intros line Hline;
    apply parseLine_ok_iff; exact Hline.
Qed.

(** X13.  A successful extraction has a commit for every line delivered. *)
Lemma extraction_complete (rd : string) (cs : list Commit) :
  parseChangelog rd = Ok cs -> length cs = length (fst (bufio.Scanner_run rd)).
Proof.
  unfold parseChangelog. destruct (bufio.Scanner_run rd) as [lines scnErr]. simpl.
  destruct (parseLines [] lines) as [cs'|e] eqn:Hp; [|discriminate].
  destruct scnErr; [discriminate|]. intros [= <-].
  apply parseLines_ok_length in Hp. exact Hp.
Qed.

End parse_properties.

Section parse_roundtrip.

(** C5, the statement as given fails: this record has five
    NUL-separated fields, the scanner delivers it as one line, and the
    extraction succeeds, with everything after the third NUL as the
    title. *)
Lemma five_fields_accepted :
  fieldCount fiveFields = 5 /\
  fst (bufio.Scanner_run fiveFields) = [fiveFields] /\
  parseChangelog fiveFields
  = Ok [ {| Hash := "abc"; Tags := []; Date := time_Unix 1 0;
            Title := "title" +:+ NUL +:+ "more" |} ].
Proof. vm_compute. repeat split; reflexivity. Qed.

Lemma NUL_app (x : string) : NUL +:+ x = String "000" x.
Proof. reflexivity. Qed.

Lemma LF_app (x : string) : LF +:+ x = String "010" x.
Proof. reflexivity. Qed.

(** The four parts of a line whose first three fields hold no NUL. *)
Lemma SplitN4_fields (a1 a2 a3 a4 : string) :
  countByte "000" a1 = 0 -> countByte "000" a2 = 0 -> countByte "000" a3 = 0 ->
  strings.SplitN (a1 +:+ NUL +:+ a2 +:+ NUL +:+ a3 +:+ NUL +:+ a4) NUL 4
  = [a1; a2; a3; a4].
Proof.
  intros H1 H2 H3. rewrite SplitN4_unfold.
  assert (exists f, String.length (a1 +:+ NUL +:+ a2 +:+ NUL +:+ a3 +:+ NUL +:+ a4)
                    = S (S (S f))) as [f ->].
  { rewrite !str_length_app. change (String.length NUL) with 1.
    exists (String.length a1 + String.length a2 + String.length a3 + String.length a4).
    lia. }
  rewrite !NUL_app. unfold NUL.
  cbn [strings.genSplit]. rewrite Cut_byte_app by exact H1.
  rewrite Cut_byte_app by exact H2.
  rewrite Cut_byte_app by exact H3.
  destruct f; reflexivity.
Qed.

Lemma render_length (r : LogRecord) : 3 <= String.length (render r).
Proof. unfold render. rewrite !str_length_app. change (String.length NUL) with 1. lia. Qed.

(** The loop body on a well-formed record. *)
Lemma parseLine_render (r : LogRecord) :
  wellFormed r -> parseLine (render r) = Ok (commitOf r).
Proof.
  intros (Hh & Ht & He & Hts). unfold parseLine, render.
  rewrite SplitN4_fields by assumption. cbn [length Nat.eqb negb sub lookup].
  unfold sub. simpl. unfold commitOf, epochOf.
  destruct (strconv.ParseInt (f_epoch r)) as [ts|e]; [|discriminate].
  f_equal. f_equal. unfold decodeTags. destruct (f_tags r); reflexivity.
Qed.

Lemma parseLines_render (recs : list LogRecord) :
  Forall wellFormed recs ->
  parseLines [] (map render recs) = Ok (map commitOf recs).
Proof.
  induction recs as [|r recs IH]; intros Hall; [reflexivity|].
  inversion Hall as [|? ? Hr Hrest]; subst. simpl.
  rewrite (parseLine_render r Hr), parseLines_app, (IH Hrest). reflexivity.
Qed.

Lemma dropCR_plain (l : string) : strings.HasSuffix l CR = false -> bufio.dropCR l = l.
Proof. intros Hs. unfold bufio.dropCR, strings.TrimSuffix. rewrite Hs. reflexivity. Qed.

Lemma leb_MaxScanTokenSize (l : string) :
  String.length l < bufio.MaxScanTokenSize ->
  (bufio.MaxScanTokenSize <=? String.length l) = false.
Proof. intros Hl. apply Nat.leb_gt. exact Hl. Qed.

Lemma scanLines_join (lines : list string) :
  Forall plainLine lines ->
  forall fuel, String.length (strings.Join lines LF) < fuel ->
  bufio.scanLines fuel (strings.Join lines LF) = (lines, None).
Proof.
  induction lines as [|l rest IH]; intros Hall fuel Hfuel.
  - destruct fuel; [lia|]. reflexivity.
  - inversion Hall as [|? ? (Hne & Hlf & Hcr & Hlen) Hrest]; subst.
    destruct fuel as [|fuel]; [lia|].
    destruct rest as [|l2 rest].
    + cbn [strings.Join]. destruct l as [|c l]; [congruence|].
      cbn [bufio.scanLines]. unfold LF. rewrite Cut_byte_none by exact Hlf.
      rewrite leb_MaxScanTokenSize, dropCR_plain by assumption. reflexivity.
    + change (strings.Join (l :: l2 :: rest) LF)
        with (l +:+ LF +:+ strings.Join (l2 :: rest) LF) in *.
      destruct l as [|c l]; [congruence|].
      rewrite str_app_cons. cbn [bufio.scanLines]. rewrite <- str_app_cons.
      rewrite LF_app. unfold LF at 1. rewrite Cut_byte_app by exact Hlf.
      rewrite leb_MaxScanTokenSize by exact Hlen.
      rewrite IH.
      * rewrite dropCR_plain by exact Hcr. reflexivity.
      * exact Hrest.
      * rewrite str_length_app, LF_app in Hfuel.
        cbn [String.length] in Hfuel. lia.
Qed.

Lemma scannable_plain (r : LogRecord) : scannable r -> plainLine (render r).
Proof.
  intros (Hlf & Hcr & Hlen). repeat split; try assumption.
  intros Hempty. pose proof (render_length r) as Hl. rewrite Hempty in Hl. simpl in Hl. lia.
Qed.

(** C6, the statement as given fails for the parse of a stream: this
    record is well-formed, with a title that ends in a carriage
    return, and the title of the commit parsed from it has lost that
    byte: the scanner drops it with the end of the line. *)
Lemma trailing_CR_is_dropped :
  wellFormed crRecord /\
  Title (commitOf crRecord) = "title" +:+ CR /\
  parseChangelog (render crRecord)
  = Ok [ {| Hash := "abc"; Tags := []; Date := time_Unix 1 0; Title := "title" |} ].
Proof. repeat split; vm_compute; reflexivity. Qed.

(** C6, as amended.  The loop body turns every well-formed record
    into the commit of the record: hash and title are the first and the
    fourth field unchanged, the timestamp is [time.Unix] of the epoch
    seconds [ParseInt] reads in the third field, and the tags are those
    of the second field: none when it is empty, otherwise its pieces
    between [", "], each without a prefix ["tag: "].  A stream of such
    records, one a line, parses to these commits, in order, when the
    scanner hands every record over unchanged: no newline in it, no
    carriage return at its end, fewer than 64 KiB. *)
Theorem wellformed_records_parse (recs : list LogRecord) :
  Forall wellFormed recs ->
  Forall (fun r => parseLine (render r) = Ok (commitOf r)) recs /\
  (Forall scannable recs ->
   parseChangelog (strings.Join (map render recs) LF) = Ok (map commitOf recs)).
Proof.
  intros Hall. split.
  - eapply Forall_impl; [exact Hall|]. apply parseLine_render.
  - intros Hscan. unfold parseChangelog, bufio.Scanner_run.
    rewrite scanLines_join.
    + rewrite (parseLines_render recs Hall). reflexivity.
    + apply Forall_map. eapply Forall_impl; [exact Hscan|]. apply scannable_plain.
    + lia.
Qed.

End parse_roundtrip.

Lemma twoRecords_wellFormed : Forall wellFormed twoRecords.
Proof.
  unfold twoRecords.
  constructor; [|constructor; [|constructor]];
    (unfold wellFormed; repeat split; vm_compute; reflexivity).
Qed.

Lemma twoRecords_scannable : Forall scannable twoRecords.
Proof.
  unfold twoRecords.
  constructor; [|constructor; [|constructor]];
    (unfold scannable; repeat (split; [vm_compute; reflexivity|]);
     apply Nat.ltb_lt; vm_compute; reflexivity).
Qed.

Lemma wellformed_records_parse_witness :
  Forall wellFormed twoRecords /\
  Forall (fun r => parseLine (render r) = Ok (commitOf r)) twoRecords /\
  parseChangelog (strings.Join (map render twoRecords) LF)
  = Ok [ {| Hash := "5d2fd3ccab986d52112bf301d47a819783339d0e";
            Tags := ["v1.2.3"; "latest"];
            Date := {| unix_sec := 1500000000; unix_nsec := 0 |};
            Title := "Fix the parser" |};
         {| Hash := "0123456789abcdef0123456789abcdef01234567";
            Tags := [];
            Date := {| unix_sec := 1499999999; unix_nsec := 0 |};
            Title := "Initial commit" |} ].
Proof.
  split; [exact twoRecords_wellFormed|].
  destruct (wellformed_records_parse twoRecords twoRecords_wellFormed) as [Hlines Hstream].
  split; [exact Hlines|]. exact (Hstream twoRecords_scannable).
Defined.

(** ** The cache directory (tracker.go) *)

Section sanitize_properties.
Import regexp.

Lemma class_nonword (c : ascii) : class_matches true word_ranges c = negb (isWord c).
Proof. reflexivity. Qed.

Lemma runLen_le (s : string) : runLen s <= String.length s.
Proof. induction s as [|c s IH]; simpl; [lia|]. destruct (isWord c); lia. Qed.

(** [[^\w]+] at the start of [s] takes the whole run, and fails when
    there is none. *)
Lemma plusLoop_nonword (fuel pos : nat) (s : string) :
  String.length s <= fuel ->
  plusLoop (rmatch (Class true word_ranges)) fuel pos s []
           (fun pos' _ caps => Some (pos', caps))
  = match runLen s with
    | O => None
    | S n => Some (pos + S n, [])
    end.
Proof.
  revert fuel pos. induction s as [|c s IH]; intros fuel pos Hfuel.
  - destruct fuel; reflexivity.
  - destruct fuel as [|fuel]; [simpl in Hfuel; lia|].
    simpl in Hfuel.
    cbn [plusLoop rmatch runLen]. rewrite class_nonword.
    destruct (isWord c); [reflexivity|]. cbn [negb].
    assert ((pos <? S pos) = true) as -> by (apply Nat.ltb_lt; lia).
    rewrite IH by lia.
    destruct (runLen s) as [|n]; simpl; f_equal; f_equal; lia.
Qed.

Lemma matchAt_pathUnsafeRE (pos : nat) (s : string) :
  matchAt patterns.pathUnsafeRE pos s
  = match runLen s with
    | O => None
    | S n => Some (pos + S n, [])
    end.
Proof.
  unfold matchAt, patterns.pathUnsafeRE. cbn [rmatch].
  apply plusLoop_nonword. lia.
Qed.

Lemma collapseRuns_true (s : string) :
  collapseRuns true s = collapseRuns false (strings.drop (runLen s) s).
Proof.
  induction s as [|c s IH]; [reflexivity|].
  simpl. destruct (isWord c) eqn:Hc.
  - simpl. rewrite Hc. reflexivity.
  - exact IH.
Qed.

Lemma collapse_run (s : string) (n : nat) :
  runLen s = S n ->
  collapseRuns false s = String "_" (collapseRuns false (strings.drop (S n) s)).
Proof.
  destruct s as [|c s]; [discriminate|]. simpl.
  destruct (isWord c); [discriminate|]. intros [= Hn].
  rewrite collapseRuns_true, Hn. reflexivity.
Qed.

Lemma replaceAll_collapse (fuel pos lastEnd : nat) (s : string) :
  String.length s < fuel -> lastEnd <= pos ->
  replaceAll fuel patterns.pathUnsafeRE "_" pos lastEnd s = collapseRuns false s.
Proof.
  revert pos lastEnd s. induction fuel as [|fuel IH]; intros pos lastEnd s Hfuel Hle; [lia|].
  cbn [replaceAll]. rewrite matchAt_pathUnsafeRE.
  destruct (runLen s) as [|n] eqn:Hrun.
  - destruct s as [|c s]; [reflexivity|].
    simpl in Hrun. simpl. destruct (isWord c); [|discriminate].
    rewrite IH; [reflexivity | simpl in Hfuel; lia | lia].
  - assert ((lastEnd <? pos + S n) = true) as -> by (apply Nat.ltb_lt; lia).
    assert ((pos <? pos + S n) = true) as -> by (apply Nat.ltb_lt; lia).
    cbn [orb]. replace (pos + S n - pos) with (S n) by lia.
    rewrite IH.
    + rewrite (collapse_run s n Hrun). reflexivity.
    + rewrite length_drop. pose proof (runLen_le s). lia.
    + lia.
Qed.

(** [pathUnsafeRE.ReplaceAllString(s, "_")] replaces every run of
    non-word bytes by one ["_"]. *)
Lemma ReplaceAllString_collapse (s : string) :
  ReplaceAllString patterns.pathUnsafeRE s "_" = collapse s.
Proof. unfold ReplaceAllString, collapse. apply replaceAll_collapse; lia. Qed.

End sanitize_properties.

Section cache_properties.
Context `{Platform}.

Lemma sanitize_collapse (s : string) : sanitize s = collapse s.
Proof. apply ReplaceAllString_collapse. Qed.

(** [ensureCacheDir] asks [os.MkdirAll] for the cache path of the URL
    and stores it in [Dir]. *)
Lemma ensureCacheDir_spec (r : GitRepo) (st : State) (u : URL) :
  url_Parse (URL_ r) = Ok u ->
  ensureCacheDir r st =
  let dir := cachePath cacheDir u in
  let st' := {| world := snd (os_MkdirAll dir (world st)); gitCalls := gitCalls st |} in
  match fst (os_MkdirAll dir (world st)) with
  | Some e => (Err e, st')
  | None => (Ok {| Revision := Revision r; URL_ := URL_ r; Dir := dir |}, st')
  end.
Proof.
  intros Hu. unfold ensureCacheDir, cachePath. rewrite Hu, !sanitize_collapse.
  destruct (os_MkdirAll _ (world st)) as [[e|] w]; reflexivity.
Qed.

(** C8, as amended.  For a remote URL that [url.Parse] accepts, a
    successful [ensureCacheDir] sets [Dir] to
    [filepath.Join(cacheDir, S(host), S(p))], where [p] is the path of
    the URL without a leading [/] and a trailing [.git] and [S]
    replaces every run of non-word bytes by one ["_"]; the directory
    depends on the URL alone, not on the revision or the state. *)
Theorem cache_dir_derivation (r r' : GitRepo) (st st' : State) (u : URL) :
  url_Parse (URL_ r) = Ok u ->
  ensureCacheDir r st = (Ok r', st') ->
  Dir r' = filepath.Join
             [cacheDir; collapse (Host u);
              collapse (strings.TrimSuffix (strings.TrimPrefix (Path u) "/") ".git")]
  /\ Revision r' = Revision r /\ URL_ r' = URL_ r.
Proof.
  intros Hu Hens. rewrite (ensureCacheDir_spec r st u Hu) in Hens. cbv zeta in Hens.
  destruct (fst (os_MkdirAll _ (world st))); [discriminate|].
  inversion Hens; subst. repeat split.
Qed.

End cache_properties.

(** C8, the statement as given fails.  For the remote
    [https://github.com/acme/widget] the program derives
    [/tmp/github_com/acme_widget]; the root, the sanitized host and the
    sanitized path, joined by [/], are [/tmp/github_com/_acme_widget],
    because the path [/acme/widget] starts with a non-word byte. *)
Lemma cache_dir_differs_from_spec_path :
  @url_Parse refPlatform widgetRemote = Ok widgetURL /\
  fst (ensureCacheDir {| Revision := ""; URL_ := widgetRemote; Dir := "" |} (startIn freshWorld))
  = Ok (widgetMirror "") /\
  Dir (widgetMirror "") = "/tmp/github_com/acme_widget" /\
  specCachePath (@cacheDir refPlatform) widgetURL = "/tmp/github_com/_acme_widget".
Proof. vm_compute. repeat split; reflexivity. Qed.

Lemma cache_dir_derivation_witness :
  Dir (widgetMirror widget1)
  = filepath.Join
      [@cacheDir refPlatform; collapse (Host widgetURL);
       collapse (strings.TrimSuffix (strings.TrimPrefix (Path widgetURL) "/") ".git")]
  /\ Revision (widgetMirror widget1)
     = Revision {| Revision := widget1; URL_ := widgetRemote; Dir := "" |}
  /\ URL_ (widgetMirror widget1)
     = URL_ {| Revision := widget1; URL_ := widgetRemote; Dir := "" |}.
Proof.
  apply (@cache_dir_derivation refPlatform
           {| Revision := widget1; URL_ := widgetRemote; Dir := "" |} (widgetMirror widget1)
           (startIn freshWorld)
           (snd (ensureCacheDir {| Revision := widget1; URL_ := widgetRemote; Dir := "" |}
                                (startIn freshWorld)))
           widgetURL).
  - vm_compute. reflexivity.
  - apply pair_eq_fst. vm_compute. reflexivity.
Defined.

(** ** The update check (tracker.go) *)

Section update_check.
Context `{Platform}.

(** [runGit] runs one command and records it. *)
Lemma runGit_calls (r : GitRepo) (args : list string) (st : State) :
  gitCalls (snd (runGit r args st)) = gitCalls st ++ [(Dir r, args)].
Proof.
  unfold runGit. destruct (exec_git (Dir r) args (world st)) as [[out [e|]] w]; reflexivity.
Qed.

Lemma runGit_world (r : GitRepo) (args : list string) (st : State) :
  world (snd (runGit r args st)) = snd (exec_git (Dir r) args (world st)).
Proof.
  unfold runGit. destruct (exec_git (Dir r) args (world st)) as [[out [e|]] w]; reflexivity.
Qed.

Lemma runGit_ok (r : GitRepo) (args : list string) (st : State) (out : string) (w' : World) :
  exec_git (Dir r) args (world st) = ((out, None), w') ->
  runGit r args st = (Ok out, {| world := w'; gitCalls := gitCalls st ++ [(Dir r, args)] |}).
Proof. intros Hgit. unfold runGit. rewrite Hgit. reflexivity. Qed.

Lemma runGit_err (r : GitRepo) (args : list string) (st : State) (out : string)
      (e : error) (w' : World) :
  exec_git (Dir r) args (world st) = ((out, Some e), w') ->
  runGit r args st
  = (Err (gitFailed args out e),
     {| world := w'; gitCalls := gitCalls st ++ [(Dir r, args)] |}).
Proof. intros Hgit. unfold runGit. rewrite Hgit. reflexivity. Qed.

(** [CheckUpdate] has two outcomes only, [(true, nil)] and
    [(false, err)]: it never answers "no update". *)
Lemma CheckUpdate_never_false (r : GitRepo) (fromCommit toCommit : string) (st : State) :
  fst (CheckUpdate r fromCommit toCommit st) <> Ok false.
Proof.
  unfold CheckUpdate.
  destruct (runGit r (isAncestorArgs fromCommit toCommit) st) as [[out|e] st'];
    simpl; discriminate.
Qed.

(** When [git merge-base --is-ancestor] does not exit with 0,
    [CheckUpdate] returns the error of [runGit]. *)
Lemma CheckUpdate_error (r : GitRepo) (fromCommit toCommit : string) (st : State)
      (out : string) (e : error) (w' : World) :
  exec_git (Dir r) (isAncestorArgs fromCommit toCommit) (world st) = ((out, Some e), w') ->
  fst (CheckUpdate r fromCommit toCommit st)
  = Err (gitFailed (isAncestorArgs fromCommit toCommit) out e).
Proof.
  intros Hgit. unfold CheckUpdate. rewrite (runGit_err _ _ _ _ _ _ Hgit). reflexivity.
Qed.

(** C1.  [CheckUpdate] reports an update whenever
    [git merge-base --is-ancestor fromCommit toCommit] exits with
    status 0.  git does so for every ancestor of [toCommit], the commit
    [toCommit] itself included, so a pinned revision equal to the head
    is reported as having an update. *)
Theorem CheckUpdate_true_on_exit_0 (r : GitRepo) (fromCommit toCommit : string)
        (st : State) (out : string) (w' : World) :
  exec_git (Dir r) ["merge-base"; "--is-ancestor"; fromCommit; toCommit] (world st)
    = ((out, None), w') ->
  CheckUpdate r fromCommit toCommit st
  = (Ok true,
     {| world := w';
        gitCalls := gitCalls st ++
                    [(Dir r, ["merge-base"; "--is-ancestor"; fromCommit; toCommit])] |}).
Proof.
  intros Hgit. unfold CheckUpdate.
  rewrite (runGit_ok r (isAncestorArgs fromCommit toCommit) st out w' Hgit). reflexivity.
Qed.

(** As [CheckUpdate] never answers [false], [NewCommits] never returns
    the pair [(nil, nil)] it has for an up-to-date dependency. *)
Lemma NewCommits_never_nil (rev url : string) (st : State) :
  fst (NewCommits rev url st) <> Ok None.
Proof.
  unfold NewCommits.
  destruct (NewGitRepo rev url st) as [[r|e] st1]; [|simpl; discriminate].
  pose proof (CheckUpdate_never_false r (Revision r) "HEAD" st1) as Hnf.
  destruct (CheckUpdate r (Revision r) "HEAD" st1) as [[p|e] st2]; [|simpl; discriminate].
  destruct p; [|contradiction Hnf; reflexivity]. simpl.
  destruct (CommitLog r (Revision r) "HEAD" st2) as [[cs|e] st3]; simpl; discriminate.
Qed.

(** A nil change log makes [writeToFile] panic. *)
Lemma writeToFile_nil (w : World) :
  writeToFile None w
  = (Panics "runtime error: invalid memory address or nil pointer dereference", w).
Proof. reflexivity. Qed.

End update_check.

(** The update check on the mirror of the reference remote, whose head is
    [widget3]: the head itself and a proper ancestor both count as
    updated; a commit off the main line and an unknown revision are both
    errors. *)
Lemma update_check_on_reference_mirror :
  fst (CheckUpdate (widgetMirror widget3) widget3 "HEAD" (startIn clonedWorld)) = Ok true /\
  fst (CheckUpdate (widgetMirror widget1) widget1 "HEAD" (startIn clonedWorld)) = Ok true /\
  fst (CheckUpdate (widgetMirror widgetSide) widgetSide "HEAD" (startIn clonedWorld))
  = Err (gitFailed (isAncestorArgs widgetSide "HEAD") "" (ExitError 1)) /\
  fst (CheckUpdate (widgetMirror "gone") "gone" "HEAD" (startIn clonedWorld))
  = Err (gitFailed (isAncestorArgs "gone" "HEAD") "fatal: Not a valid object name"
                   (ExitError 128)).
Proof. vm_compute. repeat split; reflexivity. Qed.

Lemma CheckUpdate_true_on_exit_0_witness :
  CheckUpdate (widgetMirror widget3) widget3 "HEAD" (startIn clonedWorld)
  = (Ok true,
     {| world := snd (@exec_git refPlatform widgetDir
                        ["merge-base"; "--is-ancestor"; widget3; "HEAD"] clonedWorld);
        gitCalls := gitCalls (startIn clonedWorld) ++
                    [(Dir (widgetMirror widget3),
                      ["merge-base"; "--is-ancestor"; widget3; "HEAD"])] |}).
Proof.
  apply (@CheckUpdate_true_on_exit_0 refPlatform (widgetMirror widget3) widget3 "HEAD"
           (startIn clonedWorld) "").
  apply pair_eq_fst. vm_compute. reflexivity.
Defined.

(** C2.  A dependency pinned at the head of its remote is up to date.
    The program still builds a change log for it, with no commits, and
    the worker writes its report file into the mirror. *)
Theorem up_to_date_dependency_is_reported :
  fst (NewCommits widget3 widgetRemote (startIn freshWorld))
  = Ok (Some {| Repo := widgetMirror widget3; Log := [] |}) /\
  fst (worker [mkGit widget3 widgetRemote] (startIn freshWorld)) = Returns tt /\
  sim.fs (world (snd (worker [mkGit widget3 widgetRemote] (startIn freshWorld))))
    !! (widgetDir +:+ "/report.md")
  = Some (sim.FileNode
            ("# https://github.com/acme/widget " +:+ LF +:+
             "<details><summary>There are 0 new commits.</summary><p>" +:+ LF +:+
             LF +:+ "</p></details>" +:+ LF)).
Proof. vm_compute. repeat split; reflexivity. Qed.

(** ** The mirror and its synchronisation (tracker.go) *)

Section mirror_sync.
Context `{Platform}.





(** What a successful [NewGitRepo] has done: [os.MkdirAll] succeeded
    on the cache path, and one [git] command ran there without error,
    [clone] if the directory was empty then and [pull] if it was not. *)
Lemma NewGitRepo_ok (rev url : string) (st st' : State) (r : GitRepo) :
  NewGitRepo rev url st = (Ok r, st') ->
  exists u wm out,
    url_Parse url = Ok u /\
    r = {| Revision := rev; URL_ := url; Dir := cachePath cacheDir u |} /\
    os_MkdirAll (Dir r) (world st) = (None, wm) /\
    ((isDirEmpty (Dir r) wm = Ok true /\
      exec_git (Dir r) (cloneArgs r) wm = ((out, None), world st') /\
      gitCalls st' = gitCalls st ++ [(Dir r, cloneArgs r)])
     \/
     (isDirEmpty (Dir r) wm = Ok false /\
      exec_git (Dir r) pullArgs wm = ((out, None), world st') /\
      gitCalls st' = gitCalls st ++ [(Dir r, pullArgs)])).
Proof.
  unfold NewGitRepo. intros Hnew.
  destruct (url_Parse url) as [u|e] eqn:Hu.
  2:{ unfold ensureCacheDir in Hnew. cbn [URL_] in Hnew. rewrite Hu in Hnew. discriminate. }
  rewrite (ensureCacheDir_spec {| Revision := rev; URL_ := url; Dir := "" |} st u Hu) in Hnew.
  cbv zeta in Hnew. cbn [Revision URL_] in Hnew.
  destruct (os_MkdirAll (cachePath cacheDir u) (world st)) as [[e|] wm] eqn:Hmk;
    cbn [fst snd] in Hnew; [discriminate|].
  unfold updateCache in Hnew. cbn [Dir world] in Hnew.
  destruct (isDirEmpty (cachePath cacheDir u) wm) as [[|]|e] eqn:Hempty; [| |discriminate].
  - unfold runGit in Hnew. cbn [Dir world gitCalls] in Hnew.
    destruct (exec_git _ _ wm) as [[out [e|]] w1] eqn:Hgit; [discriminate|].
    inversion Hnew; subst. exists u, wm, out. cbn [Dir world gitCalls].
    repeat split; try assumption. left. repeat split; assumption.
  - unfold runGit in Hnew. cbn [Dir world gitCalls] in Hnew.
    destruct (exec_git _ _ wm) as [[out [e|]] w1] eqn:Hgit; [discriminate|].
    inversion Hnew; subst. exists u, wm, out. cbn [Dir world gitCalls].
    repeat split; try assumption. right. repeat split; assumption.
Qed.

Lemma syncBy_calls (args : list string) (r : GitRepo) (st : State) :
  gitCalls (snd (syncBy args r st)) = gitCalls st ++ [(Dir r, args)].
Proof.
  unfold syncBy. pose proof (runGit_calls r args st) as Hcalls.
  destruct (runGit r args st) as [[out|e] st']; exact Hcalls.
Qed.

(** [NewGitRepo] once the cache directory is there. *)
Lemma NewGitRepo_sync (rev url : string) (u : URL) (st : State) (wm : World) :
  url_Parse url = Ok u ->
  os_MkdirAll (cachePath cacheDir u) (world st) = (None, wm) ->
  NewGitRepo rev url st =
  let r := {| Revision := rev; URL_ := url; Dir := cachePath cacheDir u |} in
  let stm := {| world := wm; gitCalls := gitCalls st |} in
  match isDirEmpty (Dir r) wm with
  | Err e => (Err e, stm)
  | Ok true => syncBy ["clone"; url; "--quiet"; "."] r stm
  | Ok false => syncBy ["pull"; "origin"; "master"] r stm
  end.
Proof.
  intros Hu Hmk. unfold NewGitRepo.
  rewrite (ensureCacheDir_spec {| Revision := rev; URL_ := url; Dir := "" |} st u Hu).
  cbv zeta. cbn [Revision URL_]. rewrite Hmk. cbn [fst snd].
  unfold updateCache, syncBy. cbn [Dir world].
  destruct (isDirEmpty (cachePath cacheDir u) wm) as [[|]|e]; [| |reflexivity].
  - change (cloneArgs {| Revision := rev; URL_ := url; Dir := cachePath cacheDir u |})
      with ["clone"; url; "--quiet"; "."].
    destruct (runGit _ _ _) as [[out|e] st']; reflexivity.
  - change pullArgs with ["pull"; "origin"; "master"].
    destruct (runGit _ _ _) as [[out|e] st']; reflexivity.
Qed.

(** C7, as amended.  For a URL that parses, with the cache directory
    [dir] derived from it:
    - once [os.MkdirAll] has made sure of [dir], creating it when it
      is absent, [NewGitRepo] runs one [git] command in it and returns
      what that command gives: [clone url --quiet .] when [dir] is
      empty, [pull origin master] when it is not (the branch is always
      [master], whatever the default branch of the remote), and no
      command at all when [dir] cannot be read;
    - when a first [NewGitRepo] has succeeded, and a [clone] or [pull]
      that exits with 0 leaves a directory that exists and is not
      empty, a second [NewGitRepo] for the URL is that one pull: it
      does not clone, it succeeds exactly when the pull exits with 0
      and returns the error of the pull when it does not. *)
Theorem second_acquire_pulls (url : string) (u : URL) :
  url_Parse url = Ok u ->
  let dir := cachePath cacheDir u in
  (forall rev st wm,
     os_MkdirAll dir (world st) = (None, wm) ->
     NewGitRepo rev url st =
     let r := {| Revision := rev; URL_ := url; Dir := dir |} in
     let stm := {| world := wm; gitCalls := gitCalls st |} in
     match isDirEmpty dir wm with
     | Err e => (Err e, stm)
     | Ok true => syncBy ["clone"; url; "--quiet"; "."] r stm
     | Ok false => syncBy ["pull"; "origin"; "master"] r stm
     end) /\
  ((forall args w out w',
      args = ["clone"; url; "--quiet"; "."] \/ args = ["pull"; "origin"; "master"] ->
      exec_git dir args w = ((out, None), w') ->
      os_MkdirAll dir w' = (None, w') /\ isDirEmpty dir w' = Ok false) ->
   forall rev1 rev2 st0 st1 r1,
     NewGitRepo rev1 url st0 = (Ok r1, st1) ->
     Dir r1 = dir /\
     NewGitRepo rev2 url st1
     = syncBy ["pull"; "origin"; "master"] {| Revision := rev2; URL_ := url; Dir := dir |} st1 /\
     gitCalls (snd (NewGitRepo rev2 url st1))
     = gitCalls st1 ++ [(dir, ["pull"; "origin"; "master"])]).
Proof.
  intros Hu dir. split.
  - intros rev st wm Hmk. apply NewGitRepo_sync; assumption.
  - intros Hgit rev1 rev2 st0 st1 r1 Hfirst.
    destruct (NewGitRepo_ok _ _ _ _ _ Hfirst) as (u' & wm & out & Hu' & Hr1 & _ & Hsync).
    rewrite Hu in Hu'. injection Hu' as <-.
    assert (Dir r1 = dir) as Hdir by (rewrite Hr1; reflexivity).
    rewrite Hdir in Hsync.
    assert (os_MkdirAll dir (world st1) = (None, world st1) /\
            isDirEmpty dir (world st1) = Ok false) as [Hmk Hfull].
    { destruct Hsync as [(_ & Hrun & _) | (_ & Hrun & _)].
      - apply (Hgit ["clone"; url; "--quiet"; "."] wm out).
        + left. reflexivity.
        + rewrite <- Hrun, Hr1. reflexivity.
      - apply (Hgit ["pull"; "origin"; "master"] wm out).
        + right. reflexivity.
        + exact Hrun. }
    assert (NewGitRepo rev2 url st1
            = syncBy ["pull"; "origin"; "master"]
                {| Revision := rev2; URL_ := url; Dir := dir |} st1) as Hsecond.
    { rewrite (NewGitRepo_sync rev2 url u st1 (world st1) Hu Hmk).
      cbv zeta. cbn [Dir]. fold dir. rewrite Hfull. destruct st1; reflexivity. }
    split; [exact Hdir|]. split; [exact Hsecond|].
    rewrite Hsecond. apply syncBy_calls.
Qed.

End mirror_sync.

(** *** [git] and the file system of the reference platform *)

Section sim_contract.
Import sim.

Lemma sim_clone_makes_clone (dir url : string) (w : W) (out : string) (w' : W) :
  @exec_git refPlatform dir ["clone"; url; "--quiet"; "."] w = ((out, None), w') ->
  holdsClone w' dir.
Proof.
  cbn [exec_git refPlatform platform]. unfold git.
  change (command ["clone"; url; "--quiet"; "."]) with (Some (Clone url)).
  destruct (fs w !! dir) as [[[repo|]|content]|]; try discriminate.
  destruct (remotes w !! url) as [repo|]; [|discriminate].
  destruct (entries dir w); [|discriminate].
  unfold exit. cbn. intros [= <- <-].
  exists repo. cbn. apply lookup_insert_eq.
Qed.

Lemma sim_pull (dir : string) (w : W) :
  holdsClone w dir ->
  @exec_git refPlatform dir pullArgs w = (("Already up to date.", None), w).
Proof.
  intros [repo Hrepo]. cbn [exec_git refPlatform platform]. unfold git.
  change (command pullArgs) with (Some Pull). rewrite Hrepo. reflexivity.
Qed.

Lemma sim_pull_needs_clone (dir : string) (w : W) (out : string) (w' : W) :
  @exec_git refPlatform dir pullArgs w = ((out, None), w') -> holdsClone w' dir.
Proof.
  cbn [exec_git refPlatform platform]. unfold git.
  change (command pullArgs) with (Some Pull).
  destruct (fs w !! dir) as [[[repo|]|content]|] eqn:Hdir; try discriminate.
  unfold exit. cbn. intros [= <- <-]. exists repo. exact Hdir.
Qed.

Lemma sim_pull_keeps_clone (dir : string) (w : W) res (w' : W) :
  holdsClone w dir -> @exec_git refPlatform dir pullArgs w = (res, w') ->
  holdsClone w' dir.
Proof.
  intros Hclone. rewrite (sim_pull dir w Hclone). intros [= <- <-]. exact Hclone.
Qed.

Lemma sim_clone_not_empty (dir : string) (w : W) :
  holdsClone w dir -> @isDirEmpty refPlatform dir w = Ok false.
Proof.
  intros [repo Hrepo]. unfold isDirEmpty.
  cbn [os_Open File_Readdir refPlatform platform]. unfold Open.
  rewrite Hrepo. cbv beta iota. unfold Readdir, entries, File. rewrite !Hrepo. reflexivity.
Qed.

Lemma sim_mkdir_existing (dir : string) (w : W) :
  holdsClone w dir -> @os_MkdirAll refPlatform dir w = (None, w).
Proof.
  intros [repo Hrepo]. cbn [os_MkdirAll refPlatform platform]. unfold MkdirAll.
  rewrite Hrepo. reflexivity.
Qed.

End sim_contract.

Lemma sim_synced_directory (args : list string) (w : sim.W) (out : string) (w' : sim.W) :
  args = ["clone"; widgetRemote; "--quiet"; "."] \/ args = ["pull"; "origin"; "master"] ->
  @exec_git refPlatform widgetDir args w = ((out, None), w') ->
  @os_MkdirAll refPlatform widgetDir w' = (None, w') /\
  @isDirEmpty refPlatform widgetDir w' = Ok false.
Proof.
  intros Hargs Hrun.
  assert (sim.holdsClone w' widgetDir) as Hclone.
  { destruct Hargs as [-> | ->].
    - eapply sim_clone_makes_clone. exact Hrun.
    - eapply sim_pull_needs_clone. exact Hrun. }
  split; [apply sim_mkdir_existing | apply sim_clone_not_empty]; exact Hclone.
Qed.

Lemma second_acquire_pulls_witness :
  let st0 := startIn freshWorld in
  let st1 := snd (NewGitRepo widget1 widgetRemote st0) in
  Dir (widgetMirror widget1) = widgetDir /\
  NewGitRepo widget2 widgetRemote st1
  = syncBy ["pull"; "origin"; "master"] (widgetMirror widget2) st1 /\
  gitCalls (snd (NewGitRepo widget2 widgetRemote st1))
  = gitCalls st1 ++ [(widgetDir, ["pull"; "origin"; "master"])].
Proof.
  intros st0 st1.
  destruct (@second_acquire_pulls refPlatform widgetRemote widgetURL eq_refl) as [_ Hsecond].
  apply (Hsecond sim_synced_directory widget1 widget2 st0 st1 (widgetMirror widget1)).
  apply pair_eq_fst. vm_compute. reflexivity.
Defined.

(** C7, the statement as given fails: with a remote that does not
    answer the clone of the first acquisition fails and leaves the
    directory empty, and the second acquisition clones again. *)
Lemma failed_clone_is_repeated :
  let st1 := snd (NewGitRepo widget1 widgetRemote (startIn offlineWorld)) in
  let st2 := snd (NewGitRepo widget1 widgetRemote st1) in
  isOk (fst (NewGitRepo widget1 widgetRemote (startIn offlineWorld))) = false /\
  isOk (fst (NewGitRepo widget1 widgetRemote st1)) = false /\
  gitCalls st2 = [(widgetDir, ["clone"; widgetRemote; "--quiet"; "."]);
                  (widgetDir, ["clone"; widgetRemote; "--quiet"; "."])].
Proof. vm_compute. repeat split; reflexivity. Qed.

(** The two acquisitions on the reference platform: a clone, then a pull. *)
Lemma two_acquisitions_on_reference_platform :
  let st1 := snd (NewGitRepo widget1 widgetRemote (startIn freshWorld)) in
  let st2 := snd (NewGitRepo widget2 widgetRemote st1) in
  gitCalls st2 = [(widgetDir, ["clone"; widgetRemote; "--quiet"; "."]);
                  (widgetDir, ["pull"; "origin"; "master"])].
Proof. vm_compute. reflexivity. Qed.

(** ** The report (reporter.go) *)

Section report_properties.
Context `{Platform}.

Lemma shortHash_returns (hash : string) :
  6 <= String.length hash -> shortHash hash = Returns (strings.take 6 hash).
Proof. intros Hlen. unfold shortHash. apply Nat.leb_le in Hlen. rewrite Hlen. reflexivity. Qed.

Lemma shortHash_panics (hash : string) :
  String.length hash < 6 ->
  shortHash hash = Panics "runtime error: slice bounds out of range".
Proof. intros Hlen. unfold shortHash. apply Nat.leb_gt in Hlen. rewrite Hlen. reflexivity. Qed.

(** The commits are rendered to the end exactly when no hash is
    shorter than six bytes. *)
Lemma renderCommits_completes (cl : Changelog) (cs : list Commit) :
  snd (renderCommits cl cs) = None <->
  Forall (fun c => 6 <= String.length (Hash c)) cs.
Proof.
  induction cs as [|c cs IH]; simpl.
  - split; [constructor | reflexivity].
  - destruct (Nat.le_gt_cases 6 (String.length (Hash c))) as [Hlen|Hlen].
    + rewrite (shortHash_returns _ Hlen).
      destruct (renderCommits cl cs) as [out p]. simpl in *. rewrite IH. split.
      * intros Hrest. constructor; assumption.
      * intros Hall. inversion Hall; assumption.
    + rewrite (shortHash_panics _ Hlen). simpl. split; [discriminate|].
      intros Hall. inversion Hall; subst. lia.
Qed.

(** The only panic of the rendering is the one of [shortHash]. *)
Lemma renderCommits_stops (cl : Changelog) (cs : list Commit) (msg : string) :
  snd (renderCommits cl cs) = Some msg ->
  msg = "runtime error: slice bounds out of range".
Proof.
  induction cs as [|c cs IH]; simpl; [discriminate|].
  unfold shortHash. destruct (6 <=? String.length (Hash c)).
  - destruct (renderCommits cl cs) as [out p]. exact IH.
  - simpl. congruence.
Qed.

Lemma renderReport_snd (cl : Changelog) :
  snd (renderReport cl) = snd (renderCommits cl (Log cl)).
Proof.
  unfold renderReport. destruct (renderCommits cl (Log cl)) as [body [msg|]]; reflexivity.
Qed.



End report_properties.

(** The report of [shortHashLog] on the reference platform: the worker's
    [writeToFile] panics, and the file holds the text up to the call of
    [shortHash] for the second commit. *)
Lemma short_hash_report_on_reference_platform :
  fst (@writeToFile refPlatform (Some shortHashLog) clonedWorld)
  = Panics "runtime error: slice bounds out of range" /\
  sim.fs (snd (@writeToFile refPlatform (Some shortHashLog) clonedWorld))
    !! (widgetDir +:+ "/report.md")
  = Some (sim.FileNode
            ("# https://github.com/acme/widget " +:+ LF +:+
             "<details><summary>There are 2 new commits.</summary><p>" +:+ LF +:+
             LF +:+ "- [`333333`](https://github.com/acme/widget/commit/" +:+ widget3 +:+
             ") Third" +:+ LF +:+ "- [`")).
Proof. vm_compute. split; reflexivity. Qed.



(** ** The pool of workers (main) *)

Section pool_properties.

(** The idle goroutines of a pool receive the next repositories one
    after the other, each entering its sync while the earlier ones are
    still in theirs. *)
Lemma receive_all (grs rest : list gitPackageInfo) (busy : list Thread) :
  running busy ->
  rtc step (mkPool (grs ++ rest) (busy ++ replicate (length grs) Receiving))
           (mkPool rest (busy ++ (Syncing <$> grs))).
Proof.
  revert busy. induction grs as [|gr grs IH]; intros busy Hbusy.
  - apply rtc_refl.
  - eapply rtc_l.
    + apply (step_receive (length busy) gr (grs ++ rest)).
      * apply Forall_app. split; [exact Hbusy|]. apply Forall_replicate. discriminate.
      * rewrite lookup_app_r by lia. rewrite Nat.sub_diag. reflexivity.
    + replace (<[length busy := Syncing gr]> (busy ++ replicate (length (gr :: grs)) Receiving))
        with ((busy ++ [Syncing gr]) ++ replicate (length grs) Receiving).
      * replace (busy ++ (Syncing <$> gr :: grs))
          with ((busy ++ [Syncing gr]) ++ (Syncing <$> grs)).
        -- apply IH. apply Forall_app. split; [exact Hbusy|].
           apply Forall_cons_2; [discriminate | apply Forall_nil_2].
        -- rewrite <- app_assoc. reflexivity.
      * rewrite <- app_assoc.
        rewrite (insert_app_r_alt busy _ (length busy)) by lia.
        rewrite Nat.sub_diag. reflexivity.
Qed.

Lemma step_threads_length (p p' : Pool) :
  step p p' -> length (threads p') = length (threads p).
Proof. intros Hstep. destruct Hstep; cbn [threads]; apply length_insert. Qed.

Lemma rtc_step_threads_length (p p' : Pool) :
  rtc step p p' -> length (threads p') = length (threads p).
Proof.
  induction 1 as [|p q r Hstep _ IH]; [reflexivity|].
  rewrite IH. apply step_threads_length. exact Hstep.
Qed.

Lemma syncsOf_all (url : string) (q : list gitPackageInfo) (grs : list gitPackageInfo) :
  Forall (fun gr => git_URL gr = url) grs ->
  syncsOf url (mkPool q (Syncing <$> grs)) = length grs.
Proof.
  unfold syncsOf. cbn [threads].
  induction grs as [|gr grs IH]; intros Hall; [reflexivity|].
  inversion Hall as [|? ? Hgr Hrest]; subst.
  rewrite fmap_cons, filter_cons_True.
  - simpl. rewrite IH by exact Hrest. reflexivity.
  - simpl. apply String.eqb_refl.
Qed.

(** C9, as amended.  The pool does not serialize the syncs of one
    URL, nor of different ones: a pool with as many workers as there
    are repositories at the head of the channel reaches the state in
    which all of them are in their sync at once, whatever their URLs;
    for repositories of one URL these are so many syncs of that URL at
    the same time.  The number of workers, [maxConcurrency], is the
    only bound on the syncs in progress. *)
Theorem syncs_are_not_serialized (grs rest : list gitPackageInfo) :
  rtc step (startPool (length grs) (grs ++ rest)) (mkPool rest (Syncing <$> grs)) /\
  (forall url, Forall (fun gr => git_URL gr = url) grs ->
               syncsOf url (mkPool rest (Syncing <$> grs)) = length grs) /\
  (forall n url p, rtc step (startPool n (grs ++ rest)) p -> syncsOf url p <= n).
Proof.
  split; [|split].
  - apply (receive_all grs rest []). apply Forall_nil_2.
  - intros url Hall. apply syncsOf_all. exact Hall.
  - intros n url p Hreach. apply rtc_step_threads_length in Hreach.
    unfold startPool in Hreach. cbn [threads] in Hreach.
    rewrite length_replicate in Hreach. rewrite <- Hreach.
    unfold syncsOf. apply length_filter.
Qed.

(** C9, the statement as given fails.  Two workers and two
    dependencies on one remote: both workers receive their repository
    and are in the sync of that remote at the same time. *)
Lemma two_syncs_of_one_url :
  rtc step (startPool 2 twoPins) (mkPool [] (Syncing <$> twoPins)) /\
  syncsOf widgetRemote (mkPool [] (Syncing <$> twoPins)) = 2.
Proof.
  split.
  - apply (receive_all twoPins [] []). apply Forall_nil_2.
  - vm_compute. reflexivity.
Qed.

End pool_properties.

(** * Further properties of the program *)

(** ** The mirror: what [NewGitRepo] and [NewCommits] run *)

Section pipeline_properties.
Context `{Platform}.



(** X2.  The directory of the mirror is a function of the URL: two
    successful [NewGitRepo] for one URL, at any revisions and in any
    states, return the same [Dir]. *)
Theorem same_url_same_mirror (rev1 rev2 url : string) (st1 st1' st2 st2' : State)
        (r1 r2 : GitRepo) :
  NewGitRepo rev1 url st1 = (Ok r1, st1') ->
  NewGitRepo rev2 url st2 = (Ok r2, st2') ->
  Dir r1 = Dir r2 /\ URL_ r1 = URL_ r2.
Proof.
  intros H1 H2.
  destruct (NewGitRepo_ok _ _ _ _ _ H1) as (u1 & _ & _ & Hu1 & -> & _).
  destruct (NewGitRepo_ok _ _ _ _ _ H2) as (u2 & _ & _ & Hu2 & -> & _).
  rewrite Hu1 in Hu2. injection Hu2 as <-. split; reflexivity.
Qed.

Lemma CheckUpdate_calls (r : GitRepo) (a b : string) (st : State) :
  gitCalls (snd (CheckUpdate r a b st)) = gitCalls st ++ [(Dir r, isAncestorArgs a b)].
Proof.
  unfold CheckUpdate. pose proof (runGit_calls r (isAncestorArgs a b) st) as Hc.
  destruct (runGit r (isAncestorArgs a b) st) as [[out|e] st']; exact Hc.
Qed.

Lemma CommitLog_calls (r : GitRepo) (a b : string) (st : State) :
  gitCalls (snd (CommitLog r a b st)) = gitCalls st ++ [(Dir r, logArgs a b)].
Proof.
  unfold CommitLog. pose proof (runGit_calls r (logArgs a b) st) as Hc.
  destruct (runGit r (logArgs a b) st) as [[out|e] st']; [|exact Hc].
  destruct (parseChangelog out); exact Hc.
Qed.

(** X3.  A [NewCommits] that returns a change log has run exactly three
    [git] commands, all in the directory of the mirror and in this
    order: the sync (clone or pull), the ancestor test of the pinned
    revision against [HEAD], and the log of the range from the pinned
    revision to [HEAD].  The change log names the revision and the URL
    it was asked for. *)
Theorem NewCommits_pipeline (rev url : string) (st st' : State) (cl : Changelog) :
  NewCommits rev url st = (Ok (Some cl), st') ->
  (exists sync,
     (sync = ["clone"; url; "--quiet"; "."] \/ sync = ["pull"; "origin"; "master"]) /\
     gitCalls st' = gitCalls st ++ pipeline (Dir (Repo cl)) sync rev) /\
  Revision (Repo cl) = rev /\ URL_ (Repo cl) = url.
Proof.
  unfold NewCommits. intros Hnew.
  destruct (NewGitRepo rev url st) as [[r|e] st1] eqn:Hrepo; [|discriminate].
  destruct (NewGitRepo_ok _ _ _ _ _ Hrepo) as (u & wm & out & Hu & Hr & Hmk & Hsync).
  assert (Revision r = rev /\ URL_ r = url) as [Hrev Hurl] by (rewrite Hr; split; reflexivity).
  pose proof (CheckUpdate_calls r (Revision r) "HEAD" st1) as Hc2.
  destruct (CheckUpdate r (Revision r) "HEAD" st1) as [[p|e] st2]; [|discriminate].
  destruct p; [|discriminate]. cbn [negb] in Hnew.
  pose proof (CommitLog_calls r (Revision r) "HEAD" st2) as Hc3.
  destruct (CommitLog r (Revision r) "HEAD" st2) as [[commits|e] st3]; [|discriminate].
  injection Hnew as <- <-. cbn [snd Repo] in *. rewrite Hrev in Hc2, Hc3.
  split; [|split; assumption].
  destruct Hsync as [(_ & _ & Hc1) | (_ & _ & Hc1)].
  - exists ["clone"; url; "--quiet"; "."]. split; [left; reflexivity|].
    rewrite Hc3, Hc2, Hc1. unfold cloneArgs, pipeline. rewrite Hurl, <- !app_assoc. reflexivity.
  - exists ["pull"; "origin"; "master"]. split; [right; reflexivity|].
    rewrite Hc3, Hc2, Hc1. unfold pullArgs, pipeline. rewrite <- !app_assoc. reflexivity.
Qed.


End pipeline_properties.

Lemma same_url_same_mirror_witness :
  Dir (widgetMirror widget1) = Dir (widgetMirror widget2) /\
  URL_ (widgetMirror widget1) = URL_ (widgetMirror widget2).
Proof.
  apply (@same_url_same_mirror refPlatform widget1 widget2 widgetRemote
           (startIn freshWorld) (snd (NewGitRepo widget1 widgetRemote (startIn freshWorld)))
           (startIn clonedWorld) (snd (NewGitRepo widget2 widgetRemote (startIn clonedWorld)))).
  - apply pair_eq_fst. vm_compute. reflexivity.
  - apply pair_eq_fst. vm_compute. reflexivity.
Defined.

Lemma NewCommits_pipeline_witness :
  (exists sync,
     (sync = ["clone"; widgetRemote; "--quiet"; "."] \/ sync = ["pull"; "origin"; "master"]) /\
     gitCalls (snd (NewCommits widget1 widgetRemote (startIn freshWorld)))
     = gitCalls (startIn freshWorld) ++ pipeline (Dir (Repo widgetChangelog)) sync widget1) /\
  Revision (Repo widgetChangelog) = widget1 /\ URL_ (Repo widgetChangelog) = widgetRemote.
Proof.
  apply (@NewCommits_pipeline refPlatform widget1 widgetRemote (startIn freshWorld)).
  apply pair_eq_fst. vm_compute. reflexivity.
Defined.

(** ** The report and the worker *)

Section report_extras.
Context `{Platform}.

Lemma renderCommits_entries (cl : Changelog) (cs : list Commit) :
  Forall (fun c => 6 <= String.length (Hash c)) cs ->
  renderCommits cl cs = (String.concat EmptyString (map (reportEntry cl) cs), None).
Proof.
  induction cs as [|c cs IH]; intros Hall; [reflexivity|].
  inversion Hall as [|? ? Hc Hrest]; subst.
  cbn [renderCommits map]. rewrite (shortHash_returns _ Hc), (IH Hrest).
  unfold reportEntry. destruct cs as [|c2 cs].
  - cbn [map String.concat]. rewrite str_app_nil_r. reflexivity.
  - cbn [map String.concat]. rewrite ?str_app_assoc, ?str_app_nil_l. reflexivity.
Qed.

(** X5.  For a change log whose hashes all have six bytes or more the
    template is executed to its end, and the text is the header with the
    number of commits, one entry for each commit in the order of the
    log, and the footer. *)
Theorem report_text (cl : Changelog) :
  Forall (fun c => 6 <= String.length (Hash c)) (Log cl) ->
  renderReport cl
  = (reportHead cl +:+ String.concat EmptyString (map (reportEntry cl) (Log cl)) +:+ reportFoot,
     None).
Proof.
  intros Hall. unfold renderReport. rewrite (renderCommits_entries cl (Log cl) Hall).
  unfold reportHead, reportFoot. rewrite !str_app_assoc. reflexivity.
Qed.

(** X6.  [TextReport] returns a nil error exactly when every hash has six
    bytes or more and the write of the text succeeds, whatever the
    version of [text/template]. *)
Theorem TextReport_succeeds_iff (f : File) (cl : Changelog) (w w' : World) :
  TextReport f cl w = (Returns None, w') <->
  Forall (fun c => 6 <= String.length (Hash c)) (Log cl) /\
  File_Write f (fst (renderReport cl)) w = (None, w').
Proof.
  pose proof (renderCommits_completes cl (Log cl)) as Hiff.
  rewrite <- renderReport_snd in Hiff.
  unfold TextReport. destruct (renderReport cl) as [text stopped]. cbn [fst snd] in *.
  destruct (File_Write f text w) as [[e|] w1].
  - split; [discriminate|]. intros [_ [=]].
  - destruct stopped as [msg|].
    + split.
      * destruct template_safeCall; discriminate.
      * intros [Hall _]. apply Hiff in Hall. discriminate.
    + split.
      * intros [= <-]. split; [apply Hiff|]; reflexivity.
      * intros [_ [= <-]]. reflexivity.
Qed.

Lemma TextReport_panic (f : File) (cl : Changelog) (w w' : World) (msg : string) :
  TextReport f cl w = (Panics msg, w') ->
  template_safeCall = false /\ msg = "runtime error: slice bounds out of range".
Proof.
  pose proof (renderCommits_stops cl (Log cl)) as Hstop.
  rewrite <- renderReport_snd in Hstop.
  unfold TextReport. destruct (renderReport cl) as [text stopped]. cbn [snd] in Hstop.
  destruct (File_Write f text w) as [[e|] w1]; [discriminate|].
  destruct stopped as [m|]; [|discriminate].
  destruct template_safeCall; [discriminate|].
  intros [= <- <-]. split; [reflexivity|]. apply Hstop. reflexivity.
Qed.

Lemma NewCommits_some (rev url : string) (st : State) (o : option Changelog) :
  fst (NewCommits rev url st) = Ok o -> exists cl, o = Some cl.
Proof.
  unfold NewCommits.
  destruct (NewGitRepo rev url st) as [[r|e] st1]; [|discriminate].
  pose proof (CheckUpdate_never_false r (Revision r) "HEAD" st1) as Hnf.
  destruct (CheckUpdate r (Revision r) "HEAD" st1) as [[p|e] st2]; [|discriminate].
  destruct p; [|contradiction Hnf; reflexivity]. cbn [negb].
  destruct (CommitLog r (Revision r) "HEAD" st2) as [[cs|e] st3]; [|discriminate].
  intros [= <-]. eauto.
Qed.

Lemma worker_panic_cause (grs : list gitPackageInfo) (st st' : State) (msg : string) :
  worker grs st = (Panics msg, st') ->
  template_safeCall = false /\ msg = "runtime error: slice bounds out of range".
Proof.
  revert st. induction grs as [|gr grs IH]; intros st; cbn [worker]; [discriminate|].
  pose proof (NewCommits_some (git_Revision gr) (git_URL gr) st) as Hsome.
  destruct (NewCommits (git_Revision gr) (git_URL gr) st) as [[o|e] st1]; [|apply IH].
  destruct (Hsome o eq_refl) as [cl ->].
  unfold writeToFile.
  destruct (os_Create _ (world st1)) as [[f|e] w1]; [|apply IH].
  destruct (TextReport f cl w1) as [[[e|]|m] w2] eqn:Htext; try apply IH.
  intros [= <- <-]. eapply TextReport_panic. exact Htext.
Qed.

(** X7.  The loop of a worker ends in a panic only by the slice bound error
    of [shortHash], and only with a [text/template] that does not
    recover it; the nil change log that [writeToFile] would dereference
    never reaches it. *)
Theorem worker_panics_only_in_shortHash (grs : list gitPackageInfo) (st st' : State)
        (msg : string) :
  worker grs st = (Panics msg, st') ->
  template_safeCall = false /\ msg = "runtime error: slice bounds out of range".
Proof. apply worker_panic_cause. Qed.

End report_extras.

Lemma report_text_witness :
  renderReport widgetChangelog
  = (reportHead widgetChangelog +:+
     String.concat EmptyString (map (reportEntry widgetChangelog) (Log widgetChangelog)) +:+
     reportFoot, None).
Proof.
  apply report_text.
  repeat (apply Forall_cons_2; [apply Nat.leb_le; vm_compute; reflexivity|]).
  apply Forall_nil_2.
Defined.

(** The text of the report of [widgetChangelog]. *)
Lemma report_of_widgetChangelog :
  fst (renderReport widgetChangelog)
  = "# https://github.com/acme/widget " +:+ LF +:+
    "<details><summary>There are 2 new commits.</summary><p>" +:+ LF +:+ LF +:+
    "- [`333333`](https://github.com/acme/widget/commit/" +:+ widget3 +:+ ") Third (" +:+
    labelEmoji +:+ "  [v1.1](https://github.com/acme/widget/releases/tag/v1.1))" +:+ LF +:+
    "- [`222222`](https://github.com/acme/widget/commit/" +:+ widget2 +:+ ") Second" +:+ LF +:+
    "</p></details>" +:+ LF.
Proof. vm_compute. reflexivity. Qed.

Lemma worker_panics_only_in_shortHash_witness :
  @template_safeCall refPlatform = false /\
  "runtime error: slice bounds out of range" = "runtime error: slice bounds out of range".
Proof.
  apply (@worker_panics_only_in_shortHash refPlatform [mkGit "0123456" shortRemote]
           (startIn shortWorld)
           (snd (worker [mkGit "0123456" shortRemote] (startIn shortWorld)))).
  apply pair_eq_fst. vm_compute. reflexivity.
Defined.

(** ** The cache directory: sanitized names *)

Section cache_extras.

Lemma allWord_collapseRuns (inRun : bool) (s : string) :
  allWord (collapseRuns inRun s) = true.
Proof.
  revert inRun. induction s as [|c s IH]; intros inRun; [reflexivity|].
  cbn [collapseRuns]. destruct (isWord c) eqn:Hc.
  - cbn [allWord]. rewrite Hc, IH. reflexivity.
  - destruct inRun; [apply IH|]. cbn [allWord]. rewrite IH. reflexivity.
Qed.

Lemma collapse_allWord (s : string) : allWord s = true -> collapseRuns false s = s.
Proof.
  induction s as [|c s IH]; [reflexivity|]. cbn [allWord collapseRuns].
  destruct (isWord c); [|discriminate]. intros Hs. rewrite (IH Hs). reflexivity.
Qed.

Lemma collapseRuns_false_nonempty (s : string) :
  s <> EmptyString -> collapseRuns false s <> EmptyString.
Proof.
  destruct s as [|c s]; [congruence|]. intros _. cbn [collapseRuns].
  destruct (isWord c); discriminate.
Qed.

(** X9.  The names [ensureCacheDir] builds from the host and the path hold
    word bytes only; sanitizing a sanitized name changes nothing; and
    only the empty string sanitizes to the empty string. *)
Theorem sanitize_word_bytes (s : string) :
  allWord (sanitize s) = true /\
  sanitize (sanitize s) = sanitize s /\
  (sanitize s = EmptyString <-> s = EmptyString).
Proof.
  unfold sanitize. rewrite !ReplaceAllString_collapse. unfold collapse.
  split; [apply allWord_collapseRuns|]. split.
  - apply collapse_allWord, allWord_collapseRuns.
  - split.
    + intros Hempty. destruct s as [|c s]; [reflexivity|].
      exfalso. revert Hempty. apply collapseRuns_false_nonempty. discriminate.
    + intros ->. reflexivity.
Qed.

Lemma TrimPrefix_slash_app (p x : string) :
  strings.HasPrefix x "/" = false ->
  strings.TrimPrefix (p +:+ x) "/" = strings.TrimPrefix p "/" +:+ x.
Proof.
  intros Hx. destruct p as [|c p].
  - rewrite str_app_nil_l. unfold strings.TrimPrefix. rewrite Hx. reflexivity.
  - rewrite str_app_cons. unfold strings.TrimPrefix. rewrite !HasPrefix_byte.
    destruct (Ascii.eqb c "/"); reflexivity.
Qed.

Lemma HasSuffix_app (y suf : string) : strings.HasSuffix (y +:+ suf) suf = true.
Proof.
  unfold strings.HasSuffix. rewrite str_length_app.
  replace (String.length y + String.length suf - String.length suf) with (String.length y) by lia.
  rewrite drop_length_app, String.eqb_refl, andb_true_r. apply Nat.leb_le. lia.
Qed.

Lemma TrimSuffix_app (y suf : string) : strings.TrimSuffix (y +:+ suf) suf = y.
Proof.
  unfold strings.TrimSuffix. rewrite HasSuffix_app, str_length_app.
  replace (String.length y + String.length suf - String.length suf) with (String.length y) by lia.
  apply take_length_app.
Qed.

Lemma cachePath_git_suffix (root : string) (u1 u2 : URL) :
  Host u2 = Host u1 ->
  Path u2 = Path u1 +:+ ".git" ->
  strings.HasSuffix (strings.TrimPrefix (Path u1) "/") ".git" = false ->
  cachePath root u2 = cachePath root u1.
Proof.
  intros Hhost Hpath Hplain. unfold cachePath. rewrite Hhost, Hpath.
  rewrite TrimPrefix_slash_app by reflexivity.
  rewrite TrimSuffix_app.
  unfold strings.TrimSuffix. rewrite Hplain. reflexivity.
Qed.

End cache_extras.

Section cache_sharing.
Context `{Platform}.

(** X10.  A remote written once without and once with the suffix [.git] gets
    one and the same cache directory (the path without the suffix must
    not end in [.git] itself): the two dependencies share a mirror. *)
Theorem git_suffix_shares_cache_dir (r1 r2 r1' r2' : GitRepo) (st1 st1' st2 st2' : State)
        (u1 u2 : URL) :
  url_Parse (URL_ r1) = Ok u1 ->
  url_Parse (URL_ r2) = Ok u2 ->
  Host u2 = Host u1 ->
  Path u2 = Path u1 +:+ ".git" ->
  strings.HasSuffix (strings.TrimPrefix (Path u1) "/") ".git" = false ->
  ensureCacheDir r1 st1 = (Ok r1', st1') ->
  ensureCacheDir r2 st2 = (Ok r2', st2') ->
  Dir r2' = Dir r1'.
Proof.
  intros Hu1 Hu2 Hhost Hpath Hplain He1 He2.
  rewrite (ensureCacheDir_spec r1 st1 u1 Hu1) in He1.
  rewrite (ensureCacheDir_spec r2 st2 u2 Hu2) in He2. cbv zeta in He1, He2.
  destruct (fst (os_MkdirAll _ (world st1))); [discriminate|].
  destruct (fst (os_MkdirAll _ (world st2))); [discriminate|].
  injection He1 as <- _. injection He2 as <- _. cbn [Dir].
  apply cachePath_git_suffix; assumption.
Qed.

End cache_sharing.

Lemma git_suffix_shares_cache_dir_witness :
  Dir (mkGitRepo widget2 widgetRemoteGit widgetDir) = Dir (widgetMirror widget1).
Proof.
  apply (@git_suffix_shares_cache_dir refPlatform
           (mkGitRepo widget1 widgetRemote "") (mkGitRepo widget2 widgetRemoteGit "")
           (widgetMirror widget1) (mkGitRepo widget2 widgetRemoteGit widgetDir)
           (startIn freshWorld)
           (snd (ensureCacheDir (mkGitRepo widget1 widgetRemote "") (startIn freshWorld)))
           (startIn freshWorld)
           (snd (ensureCacheDir (mkGitRepo widget2 widgetRemoteGit "") (startIn freshWorld)))
           widgetURL widgetURLGit).
  - vm_compute. reflexivity.
  - vm_compute. reflexivity.
  - reflexivity.
  - reflexivity.
  - vm_compute. reflexivity.
  - apply pair_eq_fst. vm_compute. reflexivity.
  - apply pair_eq_fst. vm_compute. reflexivity.
Defined.

(** ** The change log parser: errors and tags *)

Section parse_extras.




(** *** Tags *)

Lemma HasPrefix_comma_space (c : ascii) (s : string) :
  strings.HasPrefix (String c s) ", " = Ascii.eqb c "," && strings.HasPrefix s " ".
Proof.
  unfold strings.HasPrefix. cbn [String.prefix].
  destruct (ascii_dec "," c) as [<-|Hne]; [reflexivity|].
  symmetry. apply andb_false_iff. left. apply Ascii.eqb_neq. congruence.
Qed.

Lemma HasPrefix_space_false (t x : string) :
  countByte " " t = 0 -> strings.HasPrefix (t +:+ "," +:+ x) " " = false.
Proof.
  intros Ht. destruct t as [|c t].
  - reflexivity.
  - rewrite str_app_cons, HasPrefix_byte. cbn [countByte] in Ht.
    destruct (Ascii.eqb c " "); [discriminate | reflexivity].
Qed.

Lemma HasPrefix_space_false_end (t : string) :
  countByte " " t = 0 -> strings.HasPrefix t " " = false.
Proof.
  intros Ht. destruct t as [|c t]; [reflexivity|].
  rewrite HasPrefix_byte. cbn [countByte] in Ht.
  destruct (Ascii.eqb c " "); [discriminate | reflexivity].
Qed.

(** The first [", "] after a piece without a space is the one that
    follows the piece. *)
Lemma Cut_comma_space (t b : string) :
  countByte " " t = 0 ->
  strings.Cut (t +:+ ", " +:+ b) ", " = Some (t, b).
Proof.
  induction t as [|c t IH]; intros Ht.
  - rewrite str_app_nil_l. change (", " +:+ b) with (String "," (String " " b)).
    cbn [strings.Cut]. rewrite HasPrefix_comma_space, HasPrefix_byte. reflexivity.
  - cbn [countByte] in Ht.
    assert (countByte " " t = 0) as Ht' by (destruct (Ascii.eqb c " "); [discriminate | exact Ht]).
    rewrite str_app_cons. cbn [strings.Cut]. rewrite HasPrefix_comma_space.
    change (", " +:+ b) with ("," +:+ " " +:+ b).
    rewrite (HasPrefix_space_false t (" " +:+ b) Ht'), andb_false_r.
    change ("," +:+ " " +:+ b) with (", " +:+ b). rewrite (IH Ht'). reflexivity.
Qed.

Lemma Cut_comma_space_none (t : string) :
  countByte " " t = 0 -> strings.Cut t ", " = None.
Proof.
  induction t as [|c t IH]; intros Ht; [reflexivity|].
  cbn [countByte] in Ht.
  assert (countByte " " t = 0) as Ht' by (destruct (Ascii.eqb c " "); [discriminate | exact Ht]).
  cbn [strings.Cut]. rewrite HasPrefix_comma_space.
  rewrite (HasPrefix_space_false_end t Ht'), andb_false_r, (IH Ht'). reflexivity.
Qed.

Lemma Cut_tag (t b : string) :
  countByte " " t = 0 ->
  strings.Cut (("tag: " +:+ t) +:+ ", " +:+ b) ", " = Some ("tag: " +:+ t, b).
Proof.
  intros Ht. rewrite str_app_assoc.
  change ("tag: " +:+ t +:+ ", " +:+ b)
    with (String "t" (String "a" (String "g" (String ":" (String " " (t +:+ ", " +:+ b)))))).
  cbn [strings.Cut]. rewrite !HasPrefix_comma_space. cbn [Ascii.eqb Bool.eqb andb].
  rewrite (Cut_comma_space t b Ht). reflexivity.
Qed.

Lemma Cut_tag_none (t : string) :
  countByte " " t = 0 -> strings.Cut ("tag: " +:+ t) ", " = None.
Proof.
  intros Ht.
  change ("tag: " +:+ t)
    with (String "t" (String "a" (String "g" (String ":" (String " " t))))).
  cbn [strings.Cut]. rewrite !HasPrefix_comma_space. cbn [Ascii.eqb Bool.eqb andb].
  rewrite (Cut_comma_space_none t Ht). reflexivity.
Qed.

Lemma genSplit_decoration (ts : list string) (fuel cuts : nat) :
  ts <> [] ->
  Forall (fun t => countByte " " t = 0) ts ->
  length ts <= S fuel -> length ts <= S cuts ->
  strings.genSplit fuel cuts (decoration ts) ", " = map (fun t => "tag: " +:+ t) ts.
Proof.
  revert fuel cuts. induction ts as [|t ts IH]; intros fuel cuts Hne Hall Hfuel Hcuts;
    [congruence|].
  inversion Hall as [|? ? Ht Hrest]; subst.
  destruct ts as [|t2 ts].
  - unfold decoration. cbn [map strings.Join].
    destruct fuel as [|fuel]; [reflexivity|]. destruct cuts as [|cuts]; [reflexivity|].
    cbn [strings.genSplit]. rewrite (Cut_tag_none t Ht). reflexivity.
  - cbn [length] in Hfuel, Hcuts.
    destruct fuel as [|fuel]; [lia|]. destruct cuts as [|cuts]; [lia|].
    change (decoration (t :: t2 :: ts))
      with (("tag: " +:+ t) +:+ ", " +:+ decoration (t2 :: ts)).
    cbn [strings.genSplit]. rewrite (Cut_tag t _ Ht).
    rewrite IH; [reflexivity | discriminate | exact Hrest | cbn [length]; lia | cbn [length]; lia].
Qed.

Lemma decoration_length (ts : list string) : length ts <= String.length (decoration ts).
Proof.
  induction ts as [|t ts IH]; [cbn; lia|].
  destruct ts as [|t2 ts].
  - unfold decoration. cbn [map strings.Join]. rewrite str_length_app. cbn. lia.
  - change (decoration (t :: t2 :: ts))
      with (("tag: " +:+ t) +:+ ", " +:+ decoration (t2 :: ts)).
    rewrite !str_length_app. cbn [length String.length] in *. lia.
Qed.

Lemma TrimPrefix_tag (t : string) : strings.TrimPrefix ("tag: " +:+ t) "tag: " = t.
Proof.
  unfold strings.TrimPrefix, strings.HasPrefix.
  change ("tag: " +:+ t)
    with (String "t" (String "a" (String "g" (String ":" (String " " t))))).
  cbn. destruct t; reflexivity.
Qed.

(** Decoding undoes the decoration of [git log]: for tag names without
    a space, the tags of ["tag: t1, tag: t2, ..."] are [t1, t2, ...], in
    that order. *)
Lemma decodeTags_decoration (ts : list string) :
  Forall (fun t => countByte " " t = 0) ts -> decodeTags (decoration ts) = ts.
Proof.
  intros Hall. destruct ts as [|t ts]; [reflexivity|].
  unfold decodeTags.
  destruct (decoration (t :: ts)) as [|c d] eqn:Hd.
  { pose proof (decoration_length (t :: ts)) as Hl. rewrite Hd in Hl. cbn in Hl. lia. }
  rewrite <- Hd. unfold strings.Split, strings.SplitN. cbn [Z.eqb Z.ltb Z.compare].
  pose proof (decoration_length (t :: ts)) as Hl.
  rewrite genSplit_decoration; [| discriminate | exact Hall | lia | lia].
  rewrite map_map. rewrite <- (map_id (t :: ts)) at 2.
  apply map_ext. intros a. apply TrimPrefix_tag.
Qed.

Lemma countByte_decoration (ts : list string) :
  Forall (fun t => countByte "000" t = 0) ts -> countByte "000" (decoration ts) = 0.
Proof.
  induction ts as [|t ts IH]; intros Hall; [reflexivity|].
  inversion Hall as [|? ? Ht Hrest]; subst.
  destruct ts as [|t2 ts].
  - unfold decoration. cbn [map strings.Join]. rewrite countByte_app, Ht. reflexivity.
  - change (decoration (t :: t2 :: ts))
      with (("tag: " +:+ t) +:+ ", " +:+ decoration (t2 :: ts)).
    rewrite !countByte_app, Ht, (IH Hrest). reflexivity.
Qed.

(** X12.  Round trip of the tags through a log line: a commit that [git log]
    prints with the decoration of the tags [ts], none of which holds a
    space or a NUL byte, is parsed into a [Commit] whose [Tags] are
    [ts]. *)
Theorem tags_round_trip (hash epoch title : string) (ts : list string) (sec : Z) :
  countByte "000" hash = 0 -> countByte "000" epoch = 0 ->
  Forall (fun t => countByte " " t = 0) ts ->
  Forall (fun t => countByte "000" t = 0) ts ->
  strconv.ParseInt epoch = Ok sec ->
  parseLine (hash +:+ NUL +:+ decoration ts +:+ NUL +:+ epoch +:+ NUL +:+ title)
  = Ok {| Hash := hash; Tags := ts; Date := time_Unix sec 0; Title := title |}.
Proof.
  intros Hh He Hsp Hnul Hts. unfold parseLine.
  rewrite SplitN4_fields; [| exact Hh | apply countByte_decoration; exact Hnul | exact He].
  cbn [length Nat.eqb negb].
  change (sub [hash; decoration ts; epoch; title] 0) with hash.
  change (sub [hash; decoration ts; epoch; title] 1) with (decoration ts).
  change (sub [hash; decoration ts; epoch; title] 2) with epoch.
  change (sub [hash; decoration ts; epoch; title] 3) with title.
  rewrite Hts.
  pose proof (decodeTags_decoration ts Hsp) as Hdec. unfold decodeTags in Hdec.
  destruct (decoration ts) as [|c d] eqn:Hd.
  - cbn [String.eqb negb]. rewrite <- Hdec. reflexivity.
  - cbn [String.eqb negb]. rewrite Hdec. reflexivity.
Qed.

End parse_extras.


Lemma tags_round_trip_witness :
  parseLine (widget3 +:+ NUL +:+ decoration ["v1.1"; "latest,stable"] +:+ NUL +:+ "300" +:+ NUL +:+
             "Third")
  = Ok {| Hash := widget3; Tags := ["v1.1"; "latest,stable"]; Date := time_Unix 300 0;
          Title := "Third" |}.
Proof.
  apply tags_round_trip; try (vm_compute; reflexivity);
    repeat (apply Forall_cons_2; [vm_compute; reflexivity|]); apply Forall_nil_2.
Defined.

Lemma extraction_complete_witness :
  length (map commitOf twoRecords)
  = length (fst (bufio.Scanner_run (strings.Join (map render twoRecords) LF))).
Proof.
  apply (extraction_complete (strings.Join (map render twoRecords) LF) (map commitOf twoRecords)).
  vm_compute. reflexivity.
Defined.

(** ** The matcher against the declarative reading of the patterns *)

Section matcher_soundness.
Import regexp.

Lemma plusLoop_sound (r : Regexp) (fuel : nat) :
  (forall pos s caps k res,
      rmatch r pos s caps k = Some res ->
      exists a rest caps', s = a +:+ rest /\ Matches r pos a rest caps caps' /\
                           k (pos + String.length a) rest caps' = Some res) ->
  forall pos s caps k res,
    plusLoop (rmatch r) fuel pos s caps k = Some res ->
    exists a rest caps', s = a +:+ rest /\ Matches (Plus r) pos a rest caps caps' /\
                         k (pos + String.length a) rest caps' = Some res.
Proof.
  intros IHr. induction fuel as [|fuel IHf]; intros pos s caps k res Hloop;
    cbn [plusLoop] in Hloop; apply IHr in Hloop as (a & rest & caps1 & -> & Ha & Hk).
  - exists a, rest, caps1. split; [reflexivity|]. split; [apply M_PlusOne; exact Ha | exact Hk].
  - destruct (pos <? pos + String.length a) eqn:Hprog.
    + destruct (plusLoop (rmatch r) fuel (pos + String.length a) rest caps1 k) as [res'|] eqn:Hmore.
      * cbn [orElse] in Hk. injection Hk as <-.
        apply IHf in Hmore as (b & rest' & caps2 & -> & Hb & Hk').
        exists (a +:+ b), rest', caps2. split; [symmetry; apply str_app_assoc|]. split.
        -- eapply M_PlusMore; [exact Ha | | exact Hb].
           intros ->. apply Nat.ltb_lt in Hprog. cbn in Hprog. lia.
        -- rewrite str_length_app, Nat.add_assoc. exact Hk'.
      * cbn [orElse] in Hk. exists a, rest, caps1.
        split; [reflexivity|]. split; [apply M_PlusOne; exact Ha | exact Hk].
    + exists a, rest, caps1. split; [reflexivity|]. split; [apply M_PlusOne; exact Ha | exact Hk].
Qed.

(** Soundness of the matcher: when it succeeds, the input starts with
    a text the pattern matches, and the result is the one the
    continuation gives behind that text. *)
Lemma rmatch_sound (r : Regexp) :
  forall pos s caps k res,
    rmatch r pos s caps k = Some res ->
    exists a rest caps', s = a +:+ rest /\ Matches r pos a rest caps caps' /\
                         k (pos + String.length a) rest caps' = Some res.
Proof.
  induction r as [|c|neg ranges|r1 IH1 r2 IH2|r1 IH1 r2 IH2|r IH|i r IH| |];
    intros pos s caps k res Hm; cbn [rmatch] in Hm.
  - exists EmptyString, s, caps. split; [reflexivity|]. split; [constructor|].
    cbn [String.length]. rewrite Nat.add_0_r. exact Hm.
  - destruct s as [|c' s]; [discriminate|].
    destruct (Ascii.eqb c c') eqn:Hc; [|discriminate]. apply Ascii.eqb_eq in Hc. subst c'.
    exists (String c EmptyString), s, caps. split; [reflexivity|]. split; [constructor|].
    cbn [String.length]. rewrite Nat.add_1_r. exact Hm.
  - destruct s as [|c' s]; [discriminate|].
    destruct (class_matches neg ranges c') eqn:Hc; [|discriminate].
    exists (String c' EmptyString), s, caps. split; [reflexivity|].
    split; [constructor; exact Hc|].
    cbn [String.length]. rewrite Nat.add_1_r. exact Hm.
  - apply IH1 in Hm as (a & rest1 & caps1 & -> & Ha & Hm).
    apply IH2 in Hm as (b & rest & caps2 & -> & Hb & Hk).
    exists (a +:+ b), rest, caps2. split; [symmetry; apply str_app_assoc|]. split.
    + eapply M_Cat; eassumption.
    + rewrite str_length_app, Nat.add_assoc. exact Hk.
  - destruct (rmatch r1 pos s caps k) as [res1|] eqn:H1; cbn [orElse] in Hm.
    + injection Hm as <-. apply IH1 in H1 as (a & rest & caps' & -> & Ha & Hk).
      exists a, rest, caps'. split; [reflexivity|]. split; [apply M_AltL; exact Ha | exact Hk].
    + apply IH2 in Hm as (a & rest & caps' & -> & Ha & Hk).
      exists a, rest, caps'. split; [reflexivity|]. split; [apply M_AltR; exact Ha | exact Hk].
  - eapply plusLoop_sound; [exact IH | exact Hm].
  - apply IH in Hm as (a & rest & caps' & -> & Ha & Hk).
    exists a, rest, ((i, a) :: caps'). split; [reflexivity|]. split; [constructor; exact Ha|].
    replace (pos + String.length a - pos) with (String.length a) in Hk by lia.
    rewrite take_length_app in Hk. exact Hk.
  - destruct (pos =? 0) eqn:Hpos; [|discriminate]. apply Nat.eqb_eq in Hpos. subst pos.
    exists EmptyString, s, caps. split; [reflexivity|]. split; [constructor | exact Hm].
  - destruct s as [|c s]; [|discriminate].
    exists EmptyString, EmptyString, caps. split; [reflexivity|]. split; [constructor|].
    cbn [String.length]. rewrite Nat.add_0_r. exact Hm.
Qed.

(** What [[^/]+] matches: a segment, and no capture. *)
Lemma Matches_notSlash (pos : nat) (a rest : string) (caps caps' : Caps) :
  Matches (Plus notSlash) pos a rest caps caps' -> segment a /\ caps' = caps.
Proof.
  intros Hm. remember (Plus notSlash) as r eqn:Hr.
  induction Hm as [| | | | | |r0 pos a rest caps caps' Hone _
                   |r0 pos a b rest caps caps1 caps2 Hone _ Hne Hmore IHmore| | |];
    try discriminate; injection Hr as ->.
  - inversion Hone as [| |neg ranges c ? ? ? Hc| | | | | | | |]; subst.
    split; [|reflexivity]. split; [discriminate|].
    cbn [countByte]. cbn in Hc. destruct (Ascii.eqb c "/") eqn:Hslash; [|reflexivity].
    apply Ascii.eqb_eq in Hslash. subst c. discriminate.
  - inversion Hone as [| |neg ranges c ? ? ? Hc| | | | | | | |]; subst.
    destruct (IHmore eq_refl) as [[Hbne Hb] ->].
    split; [|reflexivity]. split; [discriminate|].
    rewrite str_app_cons, str_app_nil_l. cbn [countByte]. cbn in Hc.
    destruct (Ascii.eqb c "/") eqn:Hslash; [|exact Hb].
    apply Ascii.eqb_eq in Hslash. subst c. discriminate.
Qed.

End matcher_soundness.

(** ** The archive pattern and the mappers (repo.go) *)

Section archive_pattern.
Import regexp.

Ltac invM :=
  match goal with
  | H : Matches (Cat _ _) _ _ _ _ _ |- _ => inversion H; subst; clear H
  | H : Matches (Lit _) _ _ _ _ _ |- _ => inversion H; subst; clear H
  | H : Matches (Group _ _) _ _ _ _ _ |- _ => inversion H; subst; clear H
  | H : Matches (Alt _ _) _ _ _ _ _ |- _ => inversion H; subst; clear H
  | H : Matches EndText _ _ _ _ _ |- _ => inversion H; subst; clear H
  | H : Matches BeginText _ _ _ _ _ |- _ => inversion H; subst; clear H
  | H : Matches Empty _ _ _ _ _ |- _ => inversion H; subst; clear H
  | H : Matches (Plus notSlash) _ _ _ _ _ |- _ =>
      apply Matches_notSlash in H; destruct H as [? ?]; subst
  end.

Ltac str_norm :=
  repeat (rewrite str_app_assoc || rewrite str_app_cons || rewrite str_app_nil_l
          || rewrite str_app_nil_r).

(** What [githubRE] matches at the start of an input: the whole input,
    which has the shape of an archive path; the groups are its owner,
    repository and revision. *)
Lemma githubRE_Matches (a rest : string) (caps' : Caps) :
  Matches patterns.githubRE 0 a rest [] caps' ->
  rest = EmptyString /\
  exists owner repo rev,
    archiveShape a owner repo rev /\ caps' = [(3, rev); (2, repo); (1, owner)].
Proof.
  intros Hm.
  cbv [patterns.githubRE patterns.cats foldr Str] in Hm.
  repeat invM;
    match goal with H : EmptyString = EmptyString +:+ ?rest |- _ =>
      rewrite str_app_nil_l in H; subst rest end;
    (split; [reflexivity|]);
    match goal with
    | Ho : segment ?o, Hr : segment ?r, Hv : segment ?v |- context [[(3, ?v); (2, ?r); (1, ?o)]] =>
        exists o, r, v; split; [|reflexivity];
        split; [exact Ho|]; split; [exact Hr|]; split; [exact Hv|]
    end.
  - exists "archive", ".tar.gz". split; [str_norm; reflexivity|]. split; [left|left]; reflexivity.
  - exists "releases/download", ".tar.gz". split; [str_norm; reflexivity|].
    split; [right|left]; reflexivity.
  - exists "archive", ".zip". split; [str_norm; reflexivity|].
    split; [left|right; left]; reflexivity.
  - exists "releases/download", ".zip". split; [str_norm; reflexivity|].
    split; [right|right; left]; reflexivity.
  - match goal with Hf : segment ?f |- _ =>
      exists "archive", ("/" +:+ f); split; [str_norm; reflexivity|];
      split; [left; reflexivity|right; right; exists f; split; [exact Hf|reflexivity]] end.
  - match goal with Hf : segment ?f |- _ =>
      exists "releases/download", ("/" +:+ f); split; [str_norm; reflexivity|];
      split; [right; reflexivity|right; right; exists f; split; [exact Hf|reflexivity]] end.
Qed.

(** A pattern that starts with [^] matches at offset 0 only. *)
Lemma search_anchored (r : Regexp) (pos : nat) (s : string) :
  0 < pos -> search (Cat BeginText r) pos s = None.
Proof.
  revert pos. induction s as [|c s IH]; intros pos Hpos.
  - cbn [search]. unfold matchAt. cbn [rmatch].
    destruct pos; [lia|]. reflexivity.
  - cbn [search]. unfold matchAt. cbn [rmatch].
    destruct pos as [|pos]; [lia|]. cbn [Nat.eqb]. apply IH. lia.
Qed.

Lemma search_anchored_0 (r : Regexp) (s : string) :
  search (Cat BeginText r) 0 s =
  match matchAt (Cat BeginText r) 0 s with
  | Some (e, caps) => Some (0, e, caps)
  | None => None
  end.
Proof.
  destruct s as [|c s]; cbn [search];
    destruct (matchAt (Cat BeginText r) 0 _) as [[e caps]|]; try reflexivity.
  apply search_anchored. lia.
Qed.

Lemma githubRE_anchored :
  exists r, patterns.githubRE = Cat BeginText r.
Proof. eexists. reflexivity. Qed.

(** Soundness of the archive pattern: a match is the whole path, and the
    path has the shape of an archive path. *)
Lemma FindStringSubmatch_githubRE_sound (path : string) :
  FindStringSubmatch patterns.githubRE 3 path <> [] ->
  exists owner repo rev,
    archiveShape path owner repo rev /\
    FindStringSubmatch patterns.githubRE 3 path = [path; owner; repo; rev].
Proof.
  unfold FindStringSubmatch. destruct githubRE_anchored as [r Hr]. rewrite Hr.
  rewrite search_anchored_0. rewrite <- Hr.
  destruct (matchAt patterns.githubRE 0 path) as [[e caps]|] eqn:Hm; [|congruence].
  intros _. unfold matchAt in Hm.
  apply rmatch_sound in Hm as (a & rest & caps' & -> & Ha & Hk).
  injection Hk as <- <-.
  apply githubRE_Matches in Ha as [-> (owner & repo & rev & Hshape & ->)].
  exists owner, repo, rev. rewrite str_app_nil_r. split; [exact Hshape|].
  cbn [Nat.add]. rewrite Nat.sub_0_r.
  change (strings.drop 0 a) with a.
  replace (strings.take (String.length a) a) with a; [reflexivity|].
  rewrite <- (str_app_nil_r a) at 3. rewrite take_length_app. reflexivity.
Qed.

(** *** Completeness: the greedy loop on a segment *)

Lemma notSlash_matches (c : ascii) (s : string) :
  countByte "/" (String c s) = 0 -> class_matches true [("/", "/")%char] c = true.
Proof.
  cbn [countByte]. destruct (Ascii.eqb c "/") eqn:Hc; [discriminate|]. intros _.
  unfold class_matches, in_range. cbn [existsb fst snd orb].
  destruct ((nat_of_ascii "/" <=? nat_of_ascii c) && (nat_of_ascii c <=? nat_of_ascii "/")) eqn:Hr;
    [|reflexivity].
  apply andb_true_iff in Hr as [H1 H2]. apply Nat.leb_le in H1, H2.
  assert (nat_of_ascii c = nat_of_ascii "/") as Heq by lia.
  apply (f_equal ascii_of_nat) in Heq. rewrite !ascii_nat_embedding in Heq. subst c.
  discriminate.
Qed.

Lemma countByte_tail (c d : ascii) (s : string) :
  countByte c (String d s) = 0 -> countByte c s = 0.
Proof. cbn [countByte]. destruct (Ascii.eqb d c); [discriminate|]. intros Hs. exact Hs. Qed.

Lemma notSlash_stops (s : string) (pos : nat) (caps : Caps) (k : Cont) :
  stopsRun s -> rmatch notSlash pos s caps k = None.
Proof. destruct s as [|c s]; [reflexivity|]. intros ->. reflexivity. Qed.

Lemma plusLoop_notSlash_S (c : ascii) (s : string) (fuel pos : nat) (caps : Caps) (k : Cont) :
  class_matches true [("/", "/")%char] c = true ->
  plusLoop (rmatch notSlash) (S fuel) pos (String c s) caps k
  = orElse (plusLoop (rmatch notSlash) fuel (S pos) s caps k) (k (S pos) s caps).
Proof.
  intros Hc. cbn [plusLoop]. unfold notSlash at 1. cbn [rmatch]. rewrite Hc.
  assert ((pos <? S pos) = true) as -> by (apply Nat.ltb_lt; lia). reflexivity.
Qed.

Lemma plusLoop_notSlash_0 (c : ascii) (s : string) (pos : nat) (caps : Caps) (k : Cont) :
  class_matches true [("/", "/")%char] c = true ->
  plusLoop (rmatch notSlash) 0 pos (String c s) caps k = k (S pos) s caps.
Proof. intros Hc. cbn [plusLoop]. unfold notSlash. cbn [rmatch]. rewrite Hc. reflexivity. Qed.

(** No split of the run is accepted: the loop fails. *)
Lemma plus_notSlash_fail (t s' : string) (fuel pos : nat) (caps : Caps) (k : Cont) :
  countByte "/" t = 0 -> stopsRun s' ->
  (forall n, 1 <= n <= String.length t ->
             k (pos + n) (strings.drop n (t +:+ s')) caps = None) ->
  plusLoop (rmatch notSlash) fuel pos (t +:+ s') caps k = None.
Proof.
  revert fuel pos. induction t as [|c t IH]; intros fuel pos Ht Hstop Hfail.
  - rewrite str_app_nil_l. destruct fuel; cbn [plusLoop]; apply notSlash_stops; exact Hstop.
  - pose proof (notSlash_matches c t Ht) as Hc. apply countByte_tail in Ht.
    assert (k (S pos) (t +:+ s') caps = None) as Hone.
    { specialize (Hfail 1). rewrite Nat.add_1_r in Hfail. apply Hfail. cbn [String.length]. lia. }
    rewrite str_app_cons.
    destruct fuel as [|fuel]; [rewrite (plusLoop_notSlash_0 _ _ _ _ _ Hc); exact Hone|].
    rewrite (plusLoop_notSlash_S _ _ _ _ _ _ Hc).
    rewrite IH; [cbn [orElse]; exact Hone | exact Ht | exact Hstop |].
    intros n Hn. specialize (Hfail (S n)).
    rewrite str_app_cons in Hfail. cbn [strings.drop] in Hfail.
    replace (S pos + n) with (pos + S n) by lia. apply Hfail. cbn [String.length]. lia.
Qed.

(** The loop takes the longest split the continuation accepts. *)
Lemma plus_notSlash_backtrack (a t s' : string) (fuel pos : nat) (caps : Caps) (k : Cont)
      (res : nat * Caps) :
  a <> EmptyString -> countByte "/" a = 0 -> countByte "/" t = 0 -> stopsRun s' ->
  String.length a <= S fuel ->
  (forall n, 1 <= n <= String.length t ->
             k (pos + String.length a + n) (strings.drop n (t +:+ s')) caps = None) ->
  k (pos + String.length a) (t +:+ s') caps = Some res ->
  plusLoop (rmatch notSlash) fuel pos (a +:+ t +:+ s') caps k = Some res.
Proof.
  revert fuel pos. induction a as [|c a IH]; intros fuel pos Hne Ha Ht Hstop Hfuel Hfail Hok;
    [congruence|].
  pose proof (notSlash_matches c a Ha) as Hc. apply countByte_tail in Ha.
  rewrite str_app_cons. cbn [String.length] in *.
  destruct a as [|c2 a].
  - rewrite str_app_nil_l. cbn [String.length] in *. rewrite Nat.add_1_r in Hok.
    destruct fuel as [|fuel]; [rewrite (plusLoop_notSlash_0 _ _ _ _ _ Hc); exact Hok|].
    rewrite (plusLoop_notSlash_S _ _ _ _ _ _ Hc).
    rewrite plus_notSlash_fail; [cbn [orElse]; exact Hok | exact Ht | exact Hstop |].
    intros n Hn. replace (S pos + n) with (pos + 1 + n) by lia. apply Hfail. exact Hn.
  - destruct fuel as [|fuel]; [cbn [String.length] in Hfuel; lia|].
    rewrite (plusLoop_notSlash_S _ _ _ _ _ _ Hc).
    rewrite (IH fuel (S pos)); [reflexivity | discriminate | exact Ha | exact Ht | exact Hstop
                                | lia | |].
    + intros n Hn. replace (S pos + String.length (String c2 a) + n)
        with (pos + S (String.length (String c2 a)) + n) by lia. apply Hfail. exact Hn.
    + replace (S pos + String.length (String c2 a))
        with (pos + S (String.length (String c2 a))) by lia. exact Hok.
Qed.

(** A capturing group around the loop. *)
Lemma group_notSlash (i : nat) (a t s' : string) (pos : nat) (caps : Caps) (K : Cont)
      (res : nat * Caps) :
  segment a -> countByte "/" t = 0 -> stopsRun s' ->
  (forall n x, 1 <= n <= String.length t ->
               K (pos + String.length a + n) (strings.drop n (t +:+ s')) ((i, x) :: caps) = None) ->
  K (pos + String.length a) (t +:+ s') ((i, a) :: caps) = Some res ->
  rmatch (Group i (Plus notSlash)) pos (a +:+ t +:+ s') caps K = Some res.
Proof.
  intros [Hne Ha] Ht Hstop Hfail Hok. cbn [rmatch].
  apply plus_notSlash_backtrack; try assumption.
  - rewrite str_length_app. lia.
  - intros n Hn. apply Hfail. exact Hn.
  - replace (pos + String.length a - pos) with (String.length a) by lia.
    rewrite take_length_app. exact Hok.
Qed.

Lemma group_notSlash_greedy (i : nat) (a s' : string) (pos : nat) (caps : Caps) (K : Cont)
      (res : nat * Caps) :
  segment a -> stopsRun s' ->
  K (pos + String.length a) s' ((i, a) :: caps) = Some res ->
  rmatch (Group i (Plus notSlash)) pos (a +:+ s') caps K = Some res.
Proof.
  intros Ha Hstop Hok.
  apply (group_notSlash i a EmptyString s' pos caps K res Ha); try assumption.
  - reflexivity.
  - intros n x Hn. cbn [String.length] in Hn. lia.
Qed.

Lemma plus_notSlash_greedy (a s' : string) (pos : nat) (caps : Caps) (K : Cont)
      (res : nat * Caps) :
  segment a -> stopsRun s' ->
  K (pos + String.length a) s' caps = Some res ->
  rmatch (Plus notSlash) pos (a +:+ s') caps K = Some res.
Proof.
  intros [Hne Ha] Hstop Hok. cbn [rmatch].
  apply (plus_notSlash_backtrack a EmptyString s'); try assumption.
  - reflexivity.
  - rewrite str_length_app. lia.
  - intros n Hn. cbn [String.length] in Hn. lia.
Qed.

Lemma plus_notSlash_greedy_end (a : string) (pos : nat) (caps : Caps) (K : Cont)
      (res : nat * Caps) :
  segment a ->
  K (pos + String.length a) EmptyString caps = Some res ->
  rmatch (Plus notSlash) pos a caps K = Some res.
Proof.
  intros Ha Hok. rewrite <- (str_app_nil_r a) at 1.
  apply plus_notSlash_greedy; [exact Ha | exact I | exact Hok].
Qed.

(** *** Completeness: the pattern on an archive path *)

Lemma rmatch_Cat (r1 r2 : Regexp) pos s caps k :
  rmatch (Cat r1 r2) pos s caps k
  = rmatch r1 pos s caps (fun pos' s' caps' => rmatch r2 pos' s' caps' k).
Proof. reflexivity. Qed.

Lemma rmatch_Lit_cons (c : ascii) pos s caps k :
  rmatch (Lit c) pos (String c s) caps k = k (S pos) s caps.
Proof. cbn [rmatch]. rewrite Ascii.eqb_refl. reflexivity. Qed.

Lemma rmatch_Begin0 s caps k : rmatch BeginText 0 s caps k = k 0 s caps.
Proof. reflexivity. Qed.

Lemma rmatch_Alt (r1 r2 : Regexp) pos s caps k :
  rmatch (Alt r1 r2) pos s caps k = orElse (rmatch r1 pos s caps k) (rmatch r2 pos s caps k).
Proof. reflexivity. Qed.

Lemma orElse_l {A} (x y : option A) (r : A) : x = Some r -> orElse x y = Some r.
Proof. intros ->. reflexivity. Qed.

Lemma orElse_r {A} (x y : option A) (r : A) : x = None -> y = Some r -> orElse x y = Some r.
Proof. intros -> ->. reflexivity. Qed.

Ltac lits := repeat (rewrite rmatch_Cat, rmatch_Lit_cons; cbv beta).

(** The revision and what follows it.  With [.tar.gz] or [.zip] behind
    the revision the greedy group first runs to the end of the path and
    gives back byte after byte until the extension is matched. *)
Lemma githubTailRE_complete (rev tail : string) :
  segment rev ->
  (tail = ".tar.gz" \/ tail = ".zip" \/ exists file, segment file /\ tail = "/" +:+ file) ->
  exists f : nat -> nat, forall pos caps,
    rmatch githubTailRE pos (String "/" (rev +:+ tail)) caps
           (fun pos' _ caps' => Some (pos', caps'))
    = Some (f pos, (3, rev) :: caps).
Proof.
  intros Hv Htail. destruct Htail as [-> | [-> | (file & Hf & ->)]].
  - eexists. intros pos caps. cbv [githubTailRE patterns.cats foldr Str].
    lits. rewrite rmatch_Cat.
    change (rev +:+ ".tar.gz") with (rev +:+ ".tar.gz" +:+ "").
    apply group_notSlash; [exact Hv | reflexivity | exact I | |].
    + intros n x Hn. cbn [String.length] in Hn.
      do 8 (destruct n as [|n]; [try lia; try reflexivity|]). lia.
    + cbv beta. reflexivity.
  - eexists. intros pos caps. cbv [githubTailRE patterns.cats foldr Str].
    lits. rewrite rmatch_Cat.
    change (rev +:+ ".zip") with (rev +:+ ".zip" +:+ "").
    apply group_notSlash; [exact Hv | reflexivity | exact I | |].
    + intros n x Hn. cbn [String.length] in Hn.
      do 5 (destruct n as [|n]; [try lia; try reflexivity|]). lia.
    + cbv beta. reflexivity.
  - exists (fun pos => S (S pos + String.length rev) + String.length file).
    intros pos caps. cbv [githubTailRE patterns.cats foldr Str].
    lits. rewrite rmatch_Cat.
    apply group_notSlash_greedy; [exact Hv | reflexivity |]. cbv beta.
    rewrite rmatch_Cat, rmatch_Alt. apply orElse_r.
    + rewrite str_app_cons, str_app_nil_l. reflexivity.
    + rewrite str_app_cons, str_app_nil_l. lits.
      apply plus_notSlash_greedy_end; [exact Hf | reflexivity].
Qed.

Lemma matchAt_githubRE_complete (path owner repo rev : string) :
  archiveShape path owner repo rev ->
  exists e, matchAt patterns.githubRE 0 path = Some (e, [(3, rev); (2, repo); (1, owner)]).
Proof.
  intros (Ho & Hr & Hv & mid & tail & -> & Hmid & Htail).
  destruct (githubTailRE_complete rev tail Hv Htail) as [f Hf].
  cbv [githubTailRE patterns.cats foldr Str] in Hf.
  unfold matchAt. cbv [patterns.githubRE patterns.cats foldr Str].
  destruct Hmid as [-> | ->]; eexists;
    rewrite rmatch_Cat, rmatch_Begin0; cbv beta;
    rewrite str_app_cons, str_app_nil_l; lits;
    (rewrite rmatch_Cat; apply group_notSlash_greedy; [exact Ho | reflexivity |]; cbv beta);
    rewrite str_app_cons, str_app_nil_l; lits;
    (rewrite rmatch_Cat; apply group_notSlash_greedy; [exact Hr | reflexivity |]; cbv beta);
    rewrite str_app_cons, str_app_nil_l; lits;
    rewrite rmatch_Cat, rmatch_Alt.
  - apply orElse_l. rewrite !str_app_cons, !str_app_nil_l. lits. rewrite rmatch_Lit_cons.
    apply Hf.
  - apply orElse_r; [rewrite !str_app_cons; reflexivity|].
    rewrite !str_app_cons, !str_app_nil_l. lits. rewrite rmatch_Lit_cons.
    apply Hf.
Qed.

(** The archive pattern on a path of the archive shape: the whole path
    and its owner, repository and revision. *)
Lemma FindStringSubmatch_githubRE_complete (path owner repo rev : string) :
  archiveShape path owner repo rev ->
  FindStringSubmatch patterns.githubRE 3 path = [path; owner; repo; rev].
Proof.
  intros Hshape.
  destruct (matchAt_githubRE_complete path owner repo rev Hshape) as [e He].
  assert (FindStringSubmatch patterns.githubRE 3 path
          = strings.take (e - 0) (strings.drop 0 path) :: [owner; repo; rev]) as Hfind.
  { unfold FindStringSubmatch. destruct githubRE_anchored as [r Hr]. rewrite Hr.
    rewrite search_anchored_0. rewrite <- Hr, He. reflexivity. }
  destruct (FindStringSubmatch_githubRE_sound path) as (o & r & v & _ & Hsound).
  { rewrite Hfind. discriminate. }
  rewrite Hsound in Hfind |- *. injection Hfind as _ -> -> ->. reflexivity.
Qed.

End archive_pattern.

(** ** Resolution of archive URLs: which URLs resolve, and to what *)

Section mapper_properties.

Lemma githubMapper_find (u : URL) :
  githubMapper u =
  match regexp.FindStringSubmatch patterns.githubRE 3 (Path u) with
  | [] => Err (errorString "unsupported url")
  | m => Ok {| git_Revision := sub m 3;
               git_URL := "https://github.com/" +:+ sub m 1 +:+ "/" +:+ sub m 2 |}
  end.
Proof.
  unfold githubMapper.
  destruct (regexp.FindStringSubmatch patterns.githubRE 3 (Path u)); reflexivity.
Qed.

Lemma githubMapper_sound (u : URL) (g : gitPackageInfo) :
  githubMapper u = Ok g ->
  exists owner repo rev,
    archiveShape (Path u) owner repo rev /\ g = githubCoordinate owner repo rev.
Proof.
  rewrite githubMapper_find.
  destruct (regexp.FindStringSubmatch patterns.githubRE 3 (Path u)) as [|w m] eqn:Hfind;
    [discriminate|].
  destruct (FindStringSubmatch_githubRE_sound (Path u)) as (owner & repo & rev & Hshape & Hm).
  { rewrite Hfind. discriminate. }
  rewrite Hfind in Hm. rewrite Hm. intros [= <-].
  exists owner, repo, rev. split; [exact Hshape | reflexivity].
Qed.

Lemma githubMapper_complete (u : URL) (owner repo rev : string) :
  archiveShape (Path u) owner repo rev ->
  githubMapper u = Ok (githubCoordinate owner repo rev).
Proof.
  intros Hshape. rewrite githubMapper_find.
  rewrite (FindStringSubmatch_githubRE_complete _ _ _ _ Hshape). reflexivity.
Qed.

(** X14.  The mapper of [github.com] accepts exactly the paths of the archive
    shape, [/owner/repo/archive/rev] or
    [/owner/repo/releases/download/rev] followed by [.tar.gz], [.zip]
    or [/file], and returns the repository
    [https://github.com/owner/repo] at revision [rev]. *)
Theorem githubMapper_accepts_iff (u : URL) (g : gitPackageInfo) :
  githubMapper u = Ok g <->
  exists owner repo rev,
    archiveShape (Path u) owner repo rev /\ g = githubCoordinate owner repo rev.
Proof.
  split.
  - apply githubMapper_sound.
  - intros (owner & repo & rev & Hshape & ->). apply githubMapper_complete. exact Hshape.
Qed.

Lemma cut_segment (a x : string) :
  countByte "/" a = 0 -> strings.Cut (a +:+ "/" +:+ x) "/" = Some (a, x).
Proof.
  intros Ha. rewrite str_app_cons, str_app_nil_l. apply Cut_byte_app. exact Ha.
Qed.

Lemma segment_unique (a a' x x' : string) :
  countByte "/" a = 0 -> countByte "/" a' = 0 ->
  a +:+ "/" +:+ x = a' +:+ "/" +:+ x' -> a = a' /\ x = x'.
Proof.
  intros Ha Ha' Heq.
  pose proof (cut_segment a x Ha) as H1. rewrite Heq, (cut_segment a' x' Ha') in H1.
  injection H1 as -> ->. split; reflexivity.
Qed.

(** X15.  The mapper of [codeload.github.com] refuses every path laid out as
    codeload has them, [/owner/repo/kind/rev] with a [kind] such as
    [zip] or [tar.gz]: it accepts a third segment [archive] or
    [releases] only. *)
Theorem codeload_layout_is_refused (u : URL) (owner repo kind rev : string) :
  segment owner -> segment repo -> segment kind ->
  kind <> "archive" -> kind <> "releases" ->
  Path u = "/" +:+ owner +:+ "/" +:+ repo +:+ "/" +:+ kind +:+ "/" +:+ rev ->
  codeloadMapper u = Err (errorString "unsupported url").
Proof.
  intros [_ Ho] [_ Hr] [_ Hk] Hne1 Hne2 Hpath.
  change (codeloadMapper u) with (githubMapper u).
  destruct (githubMapper u) as [g|e] eqn:Hm.
  - exfalso. apply githubMapper_sound in Hm
      as (o & r & v & ([_ Ho'] & [_ Hr'] & [_ Hv'] & mid & tail & Hshape & Hmid & _) & _).
    rewrite Hpath in Hshape.
    rewrite !(str_app_cons "/"), !str_app_nil_l in Hshape. injection Hshape as Hshape.
    apply segment_unique in Hshape as [<- Hshape]; [| exact Ho | exact Ho'].
    apply segment_unique in Hshape as [<- Hshape]; [| exact Hr | exact Hr'].
    destruct Hmid as [-> | ->].
    + apply segment_unique in Hshape as [Hkind _]; [congruence | exact Hk | reflexivity].
    + match type of Hshape with _ = ?rhs =>
        change rhs with ("releases" +:+ "/" +:+ "download" +:+ String "/" (v +:+ tail)) in Hshape
      end.
      apply segment_unique in Hshape as [Hkind _]; [congruence | exact Hk | reflexivity].
  - revert Hm. rewrite githubMapper_find.
    destruct (regexp.FindStringSubmatch patterns.githubRE 3 (Path u)); [|discriminate].
    intros [= <-]. reflexivity.
Qed.

End mapper_properties.

Section resolution_properties.
Context `{Platform}.

Lemma HTTPToGit_loop_head (urls : list string) :
  HTTPToGit_loop urls =
  match head (omap candidate urls) with
  | Some g => Ok g
  | None => Err (errorString "no valid url")
  end.
Proof.
  induction urls as [|e urls IH]; [reflexivity|].
  change (omap candidate (e :: urls))
    with (match candidate e with
          | Some y => y :: omap candidate urls
          | None => omap candidate urls
          end).
  cbn [HTTPToGit_loop]. unfold candidate at 1.
  destruct (url_Parse e) as [u|err]; [|exact IH].
  destruct (httpGitMapper !! Host u) as [m|]; [|exact IH].
  destruct (m u) as [g|err]; [reflexivity | exact IH].
Qed.

Lemma omap_candidate_cons (x : string) (urls : list string) :
  omap candidate (x :: urls)
  = match candidate x with
    | Some y => y :: omap candidate urls
    | None => omap candidate urls
    end.
Proof. reflexivity. Qed.

(** X16.  [HTTPToGit] returns the coordinate of the first candidate URL that
    resolves: the URLs in front of it do not resolve (they do not parse,
    their host has no mapper, or the mapper refuses the path), and the
    URLs behind it play no part. *)
Theorem HTTPToGit_first_resolving (h : httpPackageInfo) (g : gitPackageInfo) :
  HTTPToGit h = Ok g <->
  exists before e after,
    URLs h = before ++ e :: after /\
    Forall (fun x => candidate x = None) before /\
    candidate e = Some g.
Proof.
  unfold HTTPToGit. generalize (URLs h) as urls. clear h.
  induction urls as [|x urls IH].
  - split; [discriminate|]. intros (before & e & after & Heq & _). destruct before; discriminate.
  - rewrite HTTPToGit_loop_head in IH |- *. rewrite omap_candidate_cons.
    destruct (candidate x) as [gx|] eqn:Hx.
    + cbn [head]. split.
      * intros [= <-]. exists [], x, urls. split; [reflexivity|]. split; [constructor | exact Hx].
      * intros (before & e & after & Heq & Hbefore & He).
        destruct before as [|b before]; cbn [app] in Heq; injection Heq as -> ->.
        -- congruence.
        -- inversion Hbefore; subst. congruence.
    + rewrite IH. split.
      * intros (before & e & after & -> & Hbefore & He).
        exists (x :: before), e, after. split; [reflexivity|].
        split; [constructor; assumption | exact He].
      * intros (before & e & after & Heq & Hbefore & He).
        destruct before as [|b before]; cbn [app] in Heq; injection Heq as -> ->.
        -- congruence.
        -- inversion Hbefore; subst. exists before, e, after. repeat split; assumption.
Qed.

(** X17.  Without a candidate that resolves, and so for an empty list of
    URLs, the only error [HTTPToGit] returns is "no valid url". *)
Theorem HTTPToGit_error (h : httpPackageInfo) (err : error) :
  HTTPToGit h = Err err <->
  err = errorString "no valid url" /\ Forall (fun x => candidate x = None) (URLs h).
Proof.
  unfold HTTPToGit. rewrite HTTPToGit_loop_head. generalize (URLs h) as urls. clear h.
  induction urls as [|x urls IH].
  - cbn. split; [intros [= <-]; split; [reflexivity | constructor]|].
    intros [-> _]. reflexivity.
  - rewrite omap_candidate_cons. destruct (candidate x) as [gx|] eqn:Hx.
    + cbn [head]. split; [discriminate|]. intros [_ Hall]. inversion Hall; subst. congruence.
    + rewrite IH. split; intros [-> Hall]; (split; [reflexivity|]).
      * constructor; assumption.
      * inversion Hall; assumption.
Qed.

(** X18.  Whatever [HTTPToGit] resolves is a repository of github.com: one of
    the candidate URLs has the host [github.com] or
    [codeload.github.com] and a path of the archive shape, and the
    coordinate is [https://github.com/owner/repo] at its revision. *)
Theorem resolved_coordinate_is_github (h : httpPackageInfo) (g : gitPackageInfo) :
  HTTPToGit h = Ok g ->
  exists e u owner repo rev,
    In e (URLs h) /\ url_Parse e = Ok u /\
    (Host u = "github.com" \/ Host u = "codeload.github.com") /\
    archiveShape (Path u) owner repo rev /\
    g = githubCoordinate owner repo rev.
Proof.
  unfold HTTPToGit. generalize (URLs h) as urls. clear h.
  induction urls as [|x urls IH]; [discriminate|].
  cbn [HTTPToGit_loop].
  assert (HTTPToGit_loop urls = Ok g ->
          exists e u owner repo rev,
            In e (x :: urls) /\ url_Parse e = Ok u /\
            (Host u = "github.com" \/ Host u = "codeload.github.com") /\
            archiveShape (Path u) owner repo rev /\ g = githubCoordinate owner repo rev) as Hrest.
  { intros Hr. destruct (IH Hr) as (e & u & o & r & v & Hin & Hrest).
    exists e, u, o, r, v. split; [right; exact Hin | exact Hrest]. }
  destruct (url_Parse x) as [u|err] eqn:Hu; [|exact Hrest].
  destruct (httpGitMapper !! Host u) as [m|] eqn:Hm; [|exact Hrest].
  destruct (m u) as [g'|err] eqn:Hg; [|exact Hrest].
  intros [= ->].
  assert (is_Some (httpGitMapper !! Host u)) as Hsome by (rewrite Hm; eauto).
  apply httpGitMapper_hosts in Hsome.
  assert (m = githubMapper \/ m = codeloadMapper) as Hmapper.
  { destruct Hsome as [Hh | Hh]; rewrite Hh in Hm.
    - rewrite httpGitMapper_github in Hm. left. congruence.
    - rewrite httpGitMapper_codeload in Hm. right. congruence. }
  assert (githubMapper u = Ok g) as Hgm by (destruct Hmapper as [-> | ->]; exact Hg).
  apply githubMapper_sound in Hgm as (owner & repo & rev & Hshape & ->).
  exists x, u, owner, repo, rev. split; [left; reflexivity|].
  split; [exact Hu|]. split; [exact Hsome|]. split; [exact Hshape | reflexivity].
Qed.

End resolution_properties.

Lemma codeload_layout_is_refused_witness :
  codeloadMapper codeloadURL = Err (errorString "unsupported url").
Proof.
  apply (codeload_layout_is_refused codeloadURL "acme" "widget" "tar.gz"
           "5d2fd3ccab986d52112bf301d47a819783339d0e").
  - split; [discriminate | reflexivity].
  - split; [discriminate | reflexivity].
  - split; [discriminate | reflexivity].
  - discriminate.
  - discriminate.
  - reflexivity.
Defined.

Lemma resolved_coordinate_is_github_witness :
  exists e u owner repo rev,
    In e ["https://example.com/widget.zip";
          "https://github.com/acme/widget/archive/v1.2.3.tar.gz"] /\
    @url_Parse refPlatform e = Ok u /\
    (Host u = "github.com" \/ Host u = "codeload.github.com") /\
    archiveShape (Path u) owner repo rev /\
    mkGit "v1.2.3" "https://github.com/acme/widget" = githubCoordinate owner repo rev.
Proof.
  apply (@resolved_coordinate_is_github refPlatform
           {| URLs := ["https://example.com/widget.zip";
                       "https://github.com/acme/widget/archive/v1.2.3.tar.gz"];
              Name := "widget" |}
           (mkGit "v1.2.3" "https://github.com/acme/widget")).
  vm_compute. reflexivity.
Defined.

(** ** From a build rule to a package ([resolveRule]) *)

Section rule_properties.

Lemma fold_left_snoc {A B : Type} (f : A -> B -> A) (l : list B) (x : B) (a : A) :
  fold_left f (l ++ [x]) a = f (fold_left f l a) x.
Proof. rewrite fold_left_app. reflexivity. Qed.

Lemma gitAttribute_fold (attrs : list Attribute) (g0 : gitPackageInfo) :
  fold_left gitAttribute attrs g0
  = {| git_Revision := default (git_Revision g0) (last (revisionValues attrs));
       git_URL := default (git_URL g0) (last (valuesOf "remote" attrs)) |}.
Proof.
  induction attrs as [|a attrs IH] using rev_ind; [destruct g0; reflexivity|].
  rewrite fold_left_snoc, IH. unfold gitAttribute, revisionValues, valuesOf.
  rewrite !filter_app, !map_app, !filter_cons, !filter_nil.
  cbn [git_Revision git_URL].
  destruct (String.eqb (attr_Name a) "remote") eqn:Hremote.
  - apply String.eqb_eq in Hremote. rewrite Hremote. cbn [String.eqb Ascii.eqb Bool.eqb orb andb].
    rewrite decide_False by discriminate. rewrite decide_True by reflexivity.
    cbn [map]. rewrite app_nil_r, last_snoc. reflexivity.
  - rewrite (decide_False (P := false = true)) by discriminate.
    cbn [map]. rewrite (app_nil_r (map attr_StringValue (filter _ attrs))).
    destruct (String.eqb (attr_Name a) "tag" || String.eqb (attr_Name a) "commit");
      cbn [andb].
    + destruct (negb (String.eqb (attr_StringValue a) EmptyString)).
      * rewrite decide_True by reflexivity. cbn [map]. rewrite last_snoc. reflexivity.
      * rewrite decide_False by discriminate. cbn [map]. rewrite app_nil_r. reflexivity.
    + rewrite decide_False by discriminate. cbn [map]. rewrite app_nil_r. reflexivity.
Qed.

Lemma goAttribute_fold (attrs : list Attribute) (g0 : goPackageInfo) :
  fold_left goAttribute attrs g0
  = {| go_Revision := default (go_Revision g0) (last (revisionValues attrs));
       go_ImportPath := default (go_ImportPath g0) (last (valuesOf "importpath" attrs)) |}.
Proof.
  induction attrs as [|a attrs IH] using rev_ind; [destruct g0; reflexivity|].
  rewrite fold_left_snoc, IH. unfold goAttribute, revisionValues, valuesOf.
  rewrite !filter_app, !map_app, !filter_cons, !filter_nil.
  cbn [go_Revision go_ImportPath].
  destruct (String.eqb (attr_Name a) "importpath") eqn:Hpath.
  - apply String.eqb_eq in Hpath. rewrite Hpath. cbn [String.eqb Ascii.eqb Bool.eqb orb andb].
    rewrite decide_False by discriminate. rewrite decide_True by reflexivity.
    cbn [map]. rewrite app_nil_r, last_snoc. reflexivity.
  - rewrite (decide_False (P := false = true)) by discriminate.
    cbn [map]. rewrite (app_nil_r (map attr_StringValue (filter _ attrs))).
    destruct (String.eqb (attr_Name a) "tag" || String.eqb (attr_Name a) "commit");
      cbn [andb].
    + destruct (negb (String.eqb (attr_StringValue a) EmptyString)).
      * rewrite decide_True by reflexivity. cbn [map]. rewrite last_snoc. reflexivity.
      * rewrite decide_False by discriminate. cbn [map]. rewrite app_nil_r. reflexivity.
    + rewrite decide_False by discriminate. cbn [map]. rewrite app_nil_r. reflexivity.
Qed.

(** X19.  For a [go_repository] and for a [git_repository] the revision is
    the value of the last attribute [tag] or [commit] that is not
    empty, whichever of the two names it has; the import path, or the
    URL, is the value of the last attribute [importpath], or [remote],
    empty or not.  Without such attributes the fields are empty, and
    attributes of other names change nothing. *)
Theorem resolveRule_repository (name : string) (attrs : list Attribute) :
  resolveRule (mkRule "go_repository" name attrs)
  = Some (GoPackage {| go_Revision := default EmptyString (last (revisionValues attrs));
                       go_ImportPath :=
                         default EmptyString (last (valuesOf "importpath" attrs)) |}) /\
  resolveRule (mkRule "git_repository" name attrs)
  = Some (GitPackage {| git_Revision := default EmptyString (last (revisionValues attrs));
                        git_URL := default EmptyString (last (valuesOf "remote" attrs)) |}).
Proof.
  unfold resolveRule. cbn [rule_RuleClass rule_Attribute String.eqb Ascii.eqb Bool.eqb].
  rewrite gitAttribute_fold, goAttribute_fold. split; reflexivity.
Qed.

Lemma httpAttribute_fold (attrs : list Attribute) (h0 : httpPackageInfo) :
  fold_left httpAttribute attrs h0
  = {| URLs := default (URLs h0) (last (urlLists attrs)); Name := Name h0 |}.
Proof.
  induction attrs as [|a attrs IH] using rev_ind; [destruct h0; reflexivity|].
  rewrite fold_left_snoc, IH. unfold httpAttribute, urlLists.
  rewrite omap_app. cbn [URLs Name omap list_omap].
  destruct (String.eqb (attr_Name a) "url").
  - destruct (negb (String.eqb (attr_StringValue a) EmptyString)).
    + rewrite last_snoc. reflexivity.
    + rewrite app_nil_r. reflexivity.
  - destruct (String.eqb (attr_Name a) "urls").
    + destruct (0 <? length (attr_StringListValue a)).
      * rewrite last_snoc. reflexivity.
      * rewrite app_nil_r. reflexivity.
    + rewrite app_nil_r. reflexivity.
Qed.

(** X20.  For an [http_archive] the candidate URLs are those of the last
    attribute that sets them: a [url] that is not empty (one candidate)
    or a [urls] that is not empty; an earlier [url] is replaced by a
    later [urls] and the other way round, never merged.  The package
    keeps the name of the rule. *)
Theorem resolveRule_http_archive (class name : string) (attrs : list Attribute) :
  class = "http_archive" \/ class = "new_http_archive" ->
  resolveRule (mkRule class name attrs)
  = Some (HTTPPackage {| URLs := default [] (last (urlLists attrs)); Name := name |}).
Proof.
  intros [-> | ->]; unfold resolveRule;
    cbn [rule_RuleClass rule_Attribute rule_Name String.eqb Ascii.eqb Bool.eqb orb];
    rewrite httpAttribute_fold; reflexivity.
Qed.

End rule_properties.

Lemma resolveRule_http_archive_witness :
  resolveRule (mkRule "http_archive" "widget" sampleAttributes)
  = Some (HTTPPackage {| URLs := default [] (last (urlLists sampleAttributes));
                         Name := "widget" |}).
Proof. apply resolveRule_http_archive. left. reflexivity. Defined.

(** The sample rule as a [git_repository] and as an [http_archive]. *)
Lemma resolveRule_samples :
  resolveRule (mkRule "git_repository" "widget" sampleAttributes)
  = Some (GitPackage (mkGit "v1.0" "https://github.com/acme/widget")) /\
  resolveRule (mkRule "http_archive" "widget" sampleAttributes)
  = Some (HTTPPackage (mkHTTP ["https://mirror.example/widget.zip";
                               "https://github.com/acme/widget/archive/v1.0.tar.gz"] "widget")) /\
  resolveRule (mkRule "local_repository" "widget" sampleAttributes) = None.
Proof. vm_compute. repeat split; reflexivity. Qed.
